(** * Grid-wise significance tests with Benjamini-Hochberg correction

    A shallow embedding of [func_stats.py]: the two xarray wrappers
    [ttest_2samp] and [mannwhitney], together with the parts of numpy,
    xarray, scipy and statsmodels they call.

    Conventions.
    - A float64 is a rational, a NaN or a signed infinity ([fval]);
      arithmetic on finite values is exact.
    - A Python exception is a value of [exn]; a computation that may raise
      returns a [result].
    - The scipy tests on a pair of 1-D sample vectors (including their
      [nan_policy="omit"] handling) are the methods of the class [Stats]:
      their numerics are not part of this development.
    - Arrays are numpy-backed: [dask="parallelized"] and [.compute()]
      change nothing there. *)

From Stdlib Require Import QArith Lia.
From stdpp Require Import base option list sorting strings gmap.

Local Open Scope string_scope.
Local Open Scope list_scope.

(** ** Floats, exceptions *)

Inductive fval : Type :=
  | FNum (q : Q)
  | FNaN
  | FInf (negative : bool).

(** [np.isfinite]: neither NaN nor an infinity. *)
Definition isfinite (v : fval) : bool :=
  match v with FNum _ => true | _ => false end.

(** Assigning a numpy bool into a float64 array casts it: [True] is [1.0],
    [False] is [0.0]. *)
Definition of_bool (b : bool) : fval := FNum (if b then 1 else 0)%Q.

Inductive exn : Type :=
  | NameError (name : string)
  | ValueError (msg : string).

Inductive result (A : Type) : Type :=
  | Ok (a : A)
  | Raise (e : exn).
Arguments Ok {A} a.
Arguments Raise {A} e.

(** Sequencing: the first exception raised ends the computation. *)
#[global] Instance result_bind : MBind result := fun A B k m =>
  match m with
  | Ok a => k a
  | Raise e => Raise e
  end.

#[global] Instance result_fmap : FMap result := fun A B f m =>
  match m with
  | Ok a => Ok (f a)
  | Raise e => Raise e
  end.

(** ** numpy on flat arrays *)

Module np.

(** [a[mask]]: the elements of [a] where the boolean mask holds. *)
Fixpoint compress {A : Type} (mask : list bool) (a : list A) : list A :=
  match mask, a with
  | b :: mask', x :: a' =>
      if b then x :: compress mask' a' else compress mask' a'
  | _, _ => []
  end.

(** The write of [a[mask] = new] once the sizes agree: the elements of
    [new] go, in order, to the positions where the mask holds. *)
Fixpoint putmask {A : Type} (a : list A) (mask : list bool) (new : list A)
  : list A :=
  match a, mask with
  | x :: a', true :: mask' =>
      match new with
      | y :: new' => y :: putmask a' mask' new'
      | [] => x :: putmask a' mask' []
      end
  | x :: a', false :: mask' => x :: putmask a' mask' new
  | _, _ => a
  end.

Definition count_nonzero (mask : list bool) : nat :=
  length (filter (fun b => b = true) mask).

(** [a[mask] = new]: numpy takes a right-hand side with one value per
    selected position, or a single value that it broadcasts, and raises
    [ValueError] otherwise. *)
Definition setitem_mask {A : Type} (a : list A) (mask : list bool)
    (new : list A) : result (list A) :=
  let k := count_nonzero mask in
  if decide (length new = k) then Ok (putmask a mask new)
  else match new with
       | [y] => Ok (putmask a mask (replicate k y))
       | _ => Raise (ValueError "boolean index assignment: shape mismatch")
       end.

(** [np.take(a, ind)] on a 1-D array [a] of rationals. *)
Definition take (a : list Q) (ind : list nat) : list Q :=
  map (fun i => nth i a 0%Q) ind.

(** Insertion of a keyed index before the first entry that is not
    smaller. *)
Fixpoint insert_key (kv : nat * Q) (l : list (nat * Q)) : list (nat * Q) :=
  match l with
  | [] => [kv]
  | h :: t =>
      if Qle_bool (snd kv) (snd h) then kv :: h :: t
      else h :: insert_key kv t
  end.

Definition enumerate (a : list Q) : list (nat * Q) :=
  zip (seq 0 (length a)) a.

Definition sort_keys (l : list (nat * Q)) : list (nat * Q) :=
  foldr insert_key [] l.

(** [np.argsort(a)]: indices that sort [a] ascending. numpy fixes no
    order among equal values; here it is that of the input. *)
Definition argsort (a : list Q) : list nat :=
  map fst (sort_keys (enumerate a)).

(** [np.nonzero(mask)[0]]: the positions where the mask holds. *)
Fixpoint nonzero_from (i : nat) (mask : list bool) : list nat :=
  match mask with
  | [] => []
  | b :: mask' =>
      if b then i :: nonzero_from (S i) mask' else nonzero_from (S i) mask'
  end.

Definition nonzero (mask : list bool) : list nat := nonzero_from 0 mask.

(** [mask.any()]. *)
Definition any (mask : list bool) : bool := existsb (fun b => b) mask.

(** [out = np.empty_like(src); out[ind] = src]: element [k] of [src] is
    stored at position [ind[k]], one assignment after the other. The
    cells of [out] start with the filler [d]; every one of them is written
    when [ind] is a permutation of the positions. *)
Definition scatter_step {A : Type} (out : list A) (p : nat * A) : list A :=
  <[p.1 := p.2]> out.

Definition scatter {A : Type} (d : A) (ind : list nat) (src : list A)
  : list A :=
  foldl scatter_step (replicate (length src) d) (zip ind src).

(** [np.minimum.accumulate(a)]: running minimum. *)
Fixpoint minimum_accumulate_from (m : Q) (a : list Q) : list Q :=
  match a with
  | [] => []
  | x :: a' =>
      let m' := if Qle_bool m x then m else x in
      m' :: minimum_accumulate_from m' a'
  end.

Definition minimum_accumulate (a : list Q) : list Q :=
  match a with
  | [] => []
  | x :: a' => x :: minimum_accumulate_from x a'
  end.

End np.

(** ** statsmodels.stats.multitest *)

Module multitest.

(** The library is external: its source is not part of the repository.
    The definitions follow the steps of its [_ecdf], [fdrcorrection]
    (method "indep", sorted input) and [multipletests] (method "fdr_bh"),
    which carry out step 3 of the specified algorithm. *)

(** Modelled from the spec: [_ecdf(x)] of statsmodels, the factors i/m of
    step 3, [arange(1, nobs + 1) / nobs]. *)
Definition _ecdf (nobs : nat) : list Q :=
  map (fun i => Z.of_nat (S i) # Pos.of_nat nobs) (seq 0 nobs).

(** Modelled from the spec: the reject vector of statsmodels'
    [fdrcorrection] on sorted p-values, the step-up of step 3 the way the
    library computes it: [reject = pvals_sorted <= ecdffactor * alpha],
    and, when some entry holds, [rejectmax] is the last position that
    holds and [reject[:rejectmax] = True]. *)
Definition fdr_reject (pvals_sorted : list Q) (alpha : Q) : list bool :=
  let ecdffactor := _ecdf (length pvals_sorted) in
  let reject :=
    zip_with (fun p e => Qle_bool p (e * alpha)) pvals_sorted ecdffactor in
  if np.any reject then
    let rejectmax := max_list (np.nonzero reject) in
    replicate rejectmax true ++ drop rejectmax reject
  else reject.

(** Modelled from the spec: the corrected p-values of statsmodels'
    [fdrcorrection] (the "adjusted p-values" of the design notes):
    [p / ecdffactor], made monotone from the right, and capped at one. *)
Definition fdr_pvals_corrected (pvals_sorted : list Q) : list Q :=
  let ecdffactor := _ecdf (length pvals_sorted) in
  let raw := zip_with Qdiv pvals_sorted ecdffactor in
  let mono := reverse (np.minimum_accumulate (reverse raw)) in
  map (fun p => if Qle_bool p 1 then p else 1%Q) mono.

(** Modelled from the spec: statsmodels' [fdrcorrection(pvals, alpha,
    method="indep", is_sorted=True)], returning both vectors. *)
Definition fdrcorrection (pvals_sorted : list Q) (alpha : Q)
  : list bool * list Q :=
  (fdr_reject pvals_sorted alpha, fdr_pvals_corrected pvals_sorted).

(** Modelled from the spec: statsmodels'
    [multipletests(pvals, alpha=alpha, method="fdr_bh")], the correction
    of step 3: the first two components of the returned tuple,
    [(reject, pvals_corrected)], in the order of the input. The p-values
    are sorted, corrected in sorted order and put back; an empty input
    gives two empty vectors. *)
Definition multipletests (pvals : list Q) (alpha : Q)
  : list bool * list Q :=
  let sortind := np.argsort pvals in
  let pvals_sorted := np.take pvals sortind in
  let '(reject, pvals_corrected) := fdrcorrection pvals_sorted alpha in
  (np.scatter false sortind reject,
   np.scatter 0%Q sortind pvals_corrected).

End multitest.

(** ** numpy n-d arrays (row-major) *)

Record ndarray : Type := NDArray { shape : list nat; data : list fval }.

(** [np.prod(shape)]: the number of elements. *)
Definition size_of (shape : list nat) : nat := foldr Nat.mul 1%nat shape.

(** Row-major strides, counted in elements. *)
Fixpoint strides (shape : list nat) : list nat :=
  match shape with
  | [] => []
  | _ :: t => size_of t :: strides t
  end.

(** All multi-indices of a shape, in row-major order ([np.ndindex]). *)
Fixpoint ndindex (shape : list nat) : list (list nat) :=
  match shape with
  | [] => [[]]
  | n :: t => i ← seq 0 n; cons i <$> ndindex t
  end.

(** [a.ravel()]. *)
Definition ravel (a : ndarray) : list fval := data a.

(** [values.reshape(shape)]. *)
Definition reshape (values : list fval) (shp : list nat) : result ndarray :=
  if decide (size_of shp = length values) then Ok (NDArray shp values)
  else Raise (ValueError "cannot reshape array").

(** Element read through per-axis strides. *)
Definition item (values : list fval) (strd ix : list nat) : fval :=
  nth (sum_list (zip_with Nat.mul ix strd)) values FNaN.

(** numpy broadcasting of two shapes, aligned on the right. *)
Fixpoint broadcast_aligned (s1 s2 : list nat) : option (list nat) :=
  match s1, s2 with
  | [], [] => Some []
  | a :: s1', b :: s2' =>
      t ← broadcast_aligned s1' s2';
      if decide (a = b) then Some (a :: t)
      else if decide (a = 1%nat) then Some (b :: t)
      else if decide (b = 1%nat) then Some (a :: t)
      else None
  | _, _ => None
  end.

(** A shape extended to [n] axes by leading axes of length one. *)
Definition pad_left (n : nat) (s : list nat) : list nat :=
  replicate (n - length s) 1%nat ++ s.

(** [np.broadcast_shapes]. *)
Definition broadcast_shapes (s1 s2 : list nat) : option (list nat) :=
  let n := length s1 `max` length s2 in
  broadcast_aligned (pad_left n s1) (pad_left n s2).

(** [np.broadcast_to(a, target)], for a target the shape of [a] broadcasts
    to: an axis of length one is read with stride zero. *)
Definition broadcast_to (a : ndarray) (target : list nat) : list fval :=
  let s := pad_left (length target) (shape a) in
  let strd :=
    zip_with (fun n st => if decide (n = 1%nat) then 0%nat else st)
             s (strides s) in
  item (data a) strd <$> ndindex target.

(** ** scipy.stats

    An external library: the calls are modelled as documented. *)

(** The four tests on one pair of 1-D sample vectors, as the two-tailed
    p-value they return under [nan_policy="omit"] (NaN when the test is
    not defined for the samples). [mannwhitneyu] with its default
    [method="auto"] chooses between the exact and the asymptotic
    distribution once for a call, looking at all the slices: the p-value
    of a pair of slices is given within a call on two whole arrays. *)
Class Stats : Type := {
  ttest_rel_1d : list fval -> list fval -> fval;
  ttest_ind_1d : list fval -> list fval -> fval;
  mannwhitneyu_in : ndarray -> ndarray -> list fval -> list fval -> fval;
  wilcoxon_1d : list fval -> list fval -> fval
}.

Module stats.

(** [np.atleast_1d]. *)
Definition atleast_1d (a : ndarray) : ndarray :=
  match shape a with
  | [] => NDArray [1%nat] (data a)
  | _ => a
  end.

(** Slice [k] of length [n] along the last axis. *)
Definition row (n k : nat) (values : list fval) : list fval :=
  take n (drop (k * n) values).

(** A two-sample test called with [axis=-1]: the test runs on every pair
    of slices along the last axis, and the result has the leading shape.
    The samples of a paired test are broadcast against each other in
    full, the last axis included (a last axis of length one is repeated);
    those of an unpaired test on their leading axes only, and their last
    axes may differ in length. Shapes that do not broadcast raise
    [ValueError]. *)
Definition along_last_axis (test : list fval -> list fval -> fval)
    (paired : bool) (x y : ndarray) : result ndarray :=
  let x := atleast_1d x in
  let y := atleast_1d y in
  if paired then
    match broadcast_shapes (shape x) (shape y) with
    | None =>
        Raise (ValueError "Array shapes are incompatible for broadcasting.")
    | Some full =>
        let lead := removelast full in
        let n := List.last full 0%nat in
        let xb := broadcast_to x full in
        let yb := broadcast_to y full in
        Ok (NDArray lead
              ((fun k => test (row n k xb) (row n k yb))
                 <$> seq 0 (size_of lead)))
    end
  else
    let n1 := List.last (shape x) 0%nat in
    let n2 := List.last (shape y) 0%nat in
    match broadcast_shapes (removelast (shape x)) (removelast (shape y)) with
    | None =>
        Raise (ValueError "Array shapes are incompatible for broadcasting.")
    | Some lead =>
        let xb := broadcast_to x (lead ++ [n1]) in
        let yb := broadcast_to y (lead ++ [n2]) in
        Ok (NDArray lead
              ((fun k => test (row n1 k xb) (row n2 k yb))
                 <$> seq 0 (size_of lead)))
    end.

Section Tests.
Context `{Stats}.

(** The four calls, each with [axis=-1, nan_policy="omit"], returning
    [.pvalue]. *)
Definition ttest_rel := along_last_axis ttest_rel_1d true.
Definition ttest_ind := along_last_axis ttest_ind_1d false.
Definition mannwhitneyu (x y : ndarray) : result ndarray :=
  along_last_axis (mannwhitneyu_in x y) false x y.
Definition wilcoxon := along_last_axis wilcoxon_1d true.

End Tests.

End stats.

(** ** xarray

    An external library: [apply_ufunc] is modelled for the arguments the
    two functions pass to it. *)

Module xr.

(** A [DataArray]: named dimensions, index coordinates (labels along a
    dimension, keyed by its name) and the values. *)
Record DataArray : Type := mkDataArray {
  dims : list string;
  coords : list (string * list Z);
  variable : ndarray
}.

(** [da.sizes]: each dimension with its length. *)
Definition sizes (da : DataArray) : list (string * nat) :=
  zip (dims da) (shape (variable da)).

(** Lookup by name in an ordered mapping. *)
Fixpoint assoc {V : Type} (k : string) (l : list (string * V)) : option V :=
  match l with
  | [] => None
  | (k', v) :: l' => if decide (k = k') then Some v else assoc k l'
  end.

(** What xarray guarantees of every [DataArray]: distinct dimension names,
    one per axis, as many values as the shape says, and index coordinates
    that name a dimension and label each of its positions. *)
Definition wf (da : DataArray) : Prop :=
  NoDup (dims da) /\
  length (dims da) = length (shape (variable da)) /\
  length (data (variable da)) = size_of (shape (variable da)) /\
  NoDup (fst <$> coords da) /\
  Forall (fun '(d, idx) => assoc d (sizes da) = Some (length idx)) (coords da).

(** The array [da] with other values in its buffer: same dimensions,
    coordinates and shape. *)
Definition with_data (da : DataArray) (values : list fval) : DataArray :=
  mkDataArray (dims da) (coords da) (NDArray (shape (variable da)) values).

(** [da.values = new]: the new values must have the shape of the old ones;
    dimensions and coordinates stay. *)
Definition set_values (da : DataArray) (new : ndarray) : result DataArray :=
  if decide (shape new = shape (variable da)) then
    Ok (mkDataArray (dims da) (coords da) new)
  else Raise (ValueError "replacement data must match the Variable's shape").

(** Alignment with [join="exact"]: an index that both arrays carry on a
    dimension that is not excluded must be the same in both. *)
Definition align_exact (da1 da2 : DataArray) (exclude : list string)
  : result unit :=
  if forallb (fun '(d, idx) =>
                bool_decide (d ∈ exclude) ||
                match assoc d (coords da2) with
                | Some idx2 => bool_decide (idx = idx2)
                | None => true
                end) (coords da1)
  then Ok ()
  else Raise (ValueError "cannot align objects with join='exact'").

(** [unified_dim_sizes], one variable at a time: a new dimension is
    appended, a known one must have the same size. *)
Fixpoint add_dim_sizes (acc l : list (string * nat)) (exclude : list string)
  : result (list (string * nat)) :=
  match l with
  | [] => Ok acc
  | (d, n) :: l' =>
      if bool_decide (d ∈ exclude) then add_dim_sizes acc l' exclude
      else match assoc d acc with
           | None => add_dim_sizes (acc ++ [(d, n)]) l' exclude
           | Some n' =>
               if decide (n' = n) then add_dim_sizes acc l' exclude
               else Raise (ValueError
                      "operands cannot be broadcast together with mismatched lengths")
           end
  end.

(** [unified_dim_sizes]: the sizes of the dimensions that are not
    excluded, in order of first appearance. *)
Definition unified_dim_sizes (da1 da2 : DataArray) (exclude : list string)
  : result (list (string * nat)) :=
  if bool_decide (NoDup (dims da1) /\ NoDup (dims da2)) then
    acc ← add_dim_sizes [] (sizes da1) exclude;
    add_dim_sizes acc (sizes da2) exclude
  else Raise (ValueError "broadcasting cannot handle duplicate dimensions").

(** [broadcast_compat_data]: the values of [da] laid out along
    [broadcast_dims + core_dims], repeated along the broadcast dimensions
    that [da] does not have. *)
Definition broadcast_compat_data (da : DataArray)
    (dim_sizes : list (string * nat)) (core_dims : list string)
  : result ndarray :=
  if bool_decide (Forall (fun d => d ∈ dims da) core_dims) then
    let new_dims := (fst <$> dim_sizes) ++ core_dims in
    let new_shape :=
      (snd <$> dim_sizes)
      ++ ((fun d => default 0%nat (assoc d (sizes da))) <$> core_dims) in
    let old_strides := zip (dims da) (strides (shape (variable da))) in
    let strd := (fun d => default 0%nat (assoc d old_strides)) <$> new_dims in
    Ok (NDArray new_shape
          (item (data (variable da)) strd <$> ndindex new_shape))
  else Raise (ValueError
         "operand to apply_ufunc has required core dimensions, but some of these dimensions are absent on an input variable").

(** The coordinates of the result: those of the inputs, the first input
    winning, without the ones on excluded dimensions. *)
Definition build_output_coords (da1 da2 : DataArray) (exclude : list string)
  : list (string * list Z) :=
  filter (fun c => c.1 ∉ exclude)
    (coords da1
     ++ filter (fun c => c.1 ∉ (fst <$> coords da1)) (coords da2)).

(** [xr.apply_ufunc(func, da1, da2, input_core_dims=[dim, dim],
    output_core_dims=[[]], exclude_dims=set(dim))] on numpy-backed arrays:
    [func] is called once, on the two arrays with the core dimensions
    moved last, and must return an array over the broadcast dimensions. *)
Definition apply_ufunc (func : ndarray -> ndarray -> result ndarray)
    (da1 da2 : DataArray) (dim : list string) : result DataArray :=
  _ ← align_exact da1 da2 dim;
  dim_sizes ← unified_dim_sizes da1 da2 dim;
  x ← broadcast_compat_data da1 dim_sizes dim;
  y ← broadcast_compat_data da2 dim_sizes dim;
  r ← func x y;
  if decide (length (shape r) = length dim_sizes) then
    if decide (shape r = snd <$> dim_sizes) then
      Ok (mkDataArray (fst <$> dim_sizes)
            (build_output_coords da1 da2 dim) r)
    else Raise (ValueError
           "size of dimension on inputs was unexpectedly changed by applied function")
  else Raise (ValueError
         "applied function returned data with an unexpected number of dimensions").

End xr.

(** ** func_stats.py *)

Import xr.

(** The names bound in the module's namespace: by the five [import]
    statements ([from scipy import stats] binds [stats] only) and by the
    two [def]s. *)
Definition module_globals : list string :=
  ["stats"; "np"; "xr"; "sm"; "statsmodels"; "ttest_2samp"; "mannwhitney"].

(** Reading a global name that is not bound raises [NameError]. *)
Definition load_global (name : string) : result unit :=
  if bool_decide (name ∈ module_globals) then Ok ()
  else Raise (NameError name).

(** The [dim] argument: a string or a list of strings. *)
Inductive dim_arg : Type :=
  | DimStr (s : string)
  | DimList (l : list string).

(** [[dim] if isinstance(dim, str) else dim]. *)
Definition dim_list (dim : dim_arg) : list string :=
  match dim with
  | DimStr s => [s]
  | DimList l => l
  end.

(** The finite floats of an array as rationals. *)
Definition as_rationals (a : list fval) : list Q :=
  omap (fun v => match v with FNum q => Some q | _ => None end) a.

Section FuncStats.
Context `{Stats}.

(** The inner function of [ttest_2samp]: the p-values of
    [stats.ttest_rel] (paired) or [stats.ttest_ind], along the last
    axis, missing samples omitted. *)
Definition _ttest (paired : bool) (x y : ndarray) : result ndarray :=
  if paired then
    _ ← load_global "stats"; stats.ttest_rel x y
  else
    _ ← load_global "stats"; stats.ttest_ind x y.

(** [ttest_2samp(da1, da2, paired=False, dim="time", global_alpha=0.05)],
    statement by statement. *)
Definition ttest_2samp (da1 da2 : DataArray) (paired : bool) (dim : dim_arg)
    (global_alpha : Q) : result DataArray :=
  let dim := dim_list dim in
  _ ← load_global "xr";
  result ← apply_ufunc (_ttest paired) da1 da2 dim;
  let shape := shape (variable result) in
  let values := ravel (variable result) in
  _ ← load_global "np";
  let notnull := isfinite <$> values in
  _ ← load_global "sm";
  let p_adjust :=
    (multitest.multipletests
       (as_rationals (np.compress notnull values)) global_alpha).1 in
  values ← np.setitem_mask values notnull (of_bool <$> p_adjust);
  new ← reshape values shape;
  set_values result new.

(** The inner function of [mannwhitney]. Its paired branch is written
    [scipy.stats.wilcoxon(...)]: it reads the global [scipy] first. *)
Definition _mannwhitneyu (paired : bool) (x y : ndarray) : result ndarray :=
  if paired then
    _ ← load_global "scipy"; stats.wilcoxon x y
  else
    _ ← load_global "stats"; stats.mannwhitneyu x y.

(** [mannwhitney(da1, da2, paired=False, dim="time", global_alpha=0.05)],
    statement by statement. *)
Definition mannwhitney (da1 da2 : DataArray) (paired : bool) (dim : dim_arg)
    (global_alpha : Q) : result DataArray :=
  let dim := dim_list dim in
  _ ← load_global "xr";
  result ← apply_ufunc (_mannwhitneyu paired) da1 da2 dim;
  let shape := shape (variable result) in
  let values := ravel (variable result) in
  _ ← load_global "np";
  let notnull := isfinite <$> values in
  _ ← load_global "sm";
  let p_adjust :=
    (multitest.multipletests
       (as_rationals (np.compress notnull values)) global_alpha).1 in
  values ← np.setitem_mask values notnull (of_bool <$> p_adjust);
  new ← reshape values shape;
  set_values result new.

End FuncStats.

(** ** A toy instance of the tests, for running the model *)

(** The sum of the samples that are not missing. *)
Definition finite_sum (a : list fval) : Q :=
  foldr Qplus 0%Q (as_rationals a).

(** NaN with fewer than two finite samples on either side, and otherwise
    [1 / (1 + (sum x - sum y)^2)]: in (0, 1], one for equal sums. *)
Definition toy_test (x y : list fval) : fval :=
  if decide (length (as_rationals x) < 2 \/ length (as_rationals y) < 2)%nat
  then FNaN
  else let d := (finite_sum x - finite_sum y)%Q in
       FNum (Qred (1 / (1 + d * d))%Q).

Definition toy_stats : Stats :=
  {| ttest_rel_1d := toy_test; ttest_ind_1d := toy_test;
     mannwhitneyu_in := fun _ _ => toy_test; wilcoxon_1d := toy_test |}.

(** Integers as floats. *)
Definition zs (l : list Z) : list fval := (fun z => FNum (inject_Z z)) <$> l.

(** Three small grids over [x] (three cells, labelled 10, 20, 30) and
    [time]: [exA] and [exC] with three samples per cell, [exB] with four.
    The last cell of [exA] holds a single sample that is not missing. *)
Definition exA : DataArray :=
  mkDataArray ["x"; "time"] [("x", [10; 20; 30]%Z)]
    (NDArray [3; 3]%nat (zs [0; 0; 0; 1; 2; 3]%Z ++ [FNaN; FNaN; FNum 1%Q])).

Definition exB : DataArray :=
  mkDataArray ["x"; "time"] [("x", [10; 20; 30]%Z)]
    (NDArray [3; 4]%nat (zs [10; 10; 10; 10; 1; 2; 3; 0; 1; 2; 3; 4]%Z)).

Definition exC : DataArray :=
  mkDataArray ["x"; "time"] [("x", [10; 20; 30]%Z)]
    (NDArray [3; 3]%nat (zs [5; 5; 5; 1; 2; 3; 1; 2; 3]%Z)).

(** ** The Benjamini-Hochberg step-up procedure, as the specification
       words it *)

Module BH.

Fixpoint insert_sorted (p : Q) (l : list Q) : list Q :=
  match l with
  | [] => [p]
  | h :: t => if Qle_bool p h then p :: h :: t else h :: insert_sorted p t
  end.

(** "sort the finite p-values ascending" *)
Definition sort_ascending (pvals : list Q) : list Q :=
  foldr insert_sorted [] pvals.

(** "compare the i-th (1-based) against i/m * alpha": does rank [i] of the
    sorted family of size [m] satisfy the inequality? *)
Definition satisfies (sorted : list Q) (alpha : Q) (i : nat) : bool :=
  match sorted !! (i - 1)%nat with
  | Some p => Qle_bool p ((Z.of_nat i # Pos.of_nat (length sorted)) * alpha)
  | None => false
  end.

(** "find the largest i satisfying the inequality" *)
Definition largest_rank (sorted : list Q) (alpha : Q) : option nat :=
  last (filter (fun i => satisfies sorted alpha i = true)
               (seq 1 (length sorted))).

(** "that rank's p-value" *)
Definition cutoff (pvals : list Q) (alpha : Q) : option Q :=
  let sorted := sort_ascending pvals in
  i ← largest_rank sorted alpha; sorted !! (i - 1)%nat.

(** "mark all p-values at or below that rank's p-value as significant" *)
Definition significant (pvals : list Q) (alpha : Q) (p : Q) : bool :=
  match cutoff pvals alpha with
  | Some c => Qle_bool p c
  | None => false
  end.

Definition step_up (pvals : list Q) (alpha : Q) : list bool :=
  significant pvals alpha <$> pvals.

(** The inputs the procedure is meant for: a level that is not negative,
    or a family without a negative p-value. *)
Definition regular (alpha : Q) (pvals : list Q) : Prop :=
  (0 <= alpha)%Q \/ Forall (fun p => (0 <= p)%Q) pvals.

End BH.

(** The two vectors [multipletests] returns, in closed form. *)
Definition reject_of (pvals : list Q) (alpha : Q) : list bool :=
  np.scatter false (np.argsort pvals)
    (multitest.fdr_reject (BH.sort_ascending pvals) alpha).

Definition pvals_corrected_of (pvals : list Q) : list Q :=
  np.scatter 0%Q (np.argsort pvals)
    (multitest.fdr_pvals_corrected (BH.sort_ascending pvals)).

(** ** Vocabulary of the statements *)

(** The two operations. *)
Inductive operation : Type := TTest | RankTest.

Section Vocabulary.
Context `{Stats}.

(** The per-cell function an operation hands to [apply_ufunc]. *)
Definition cell_test (op : operation) (paired : bool)
  : ndarray -> ndarray -> result ndarray :=
  match op with
  | TTest => _ttest paired
  | RankTest => _mannwhitneyu paired
  end.

(** The grid of raw p-values: what [apply_ufunc] returns, before the
    correction. *)
Definition raw_pvalues (op : operation) (da1 da2 : DataArray)
    (paired : bool) (dim : dim_arg) : result DataArray :=
  apply_ufunc (cell_test op paired) da1 da2 (dim_list dim).

Definition run (op : operation) (da1 da2 : DataArray) (paired : bool)
    (dim : dim_arg) (global_alpha : Q) : result DataArray :=
  match op with
  | TTest => ttest_2samp da1 da2 paired dim global_alpha
  | RankTest => mannwhitney da1 da2 paired dim global_alpha
  end.

End Vocabulary.

(** The family handed to the correction: [values[notnull]]. *)
Definition family (values : list fval) : list Q :=
  as_rationals (np.compress (isfinite <$> values) values).

(** The position of cell [i] within the family: the number of finite
    cells before it. *)
Definition family_index (values : list fval) (i : nat) : nat :=
  length (as_rationals (take i values)).

(** A cell marked significant holds [1.0]. *)
Definition is_significant (v : fval) : bool :=
  match v with
  | FNum q => Qeq_bool q 1
  | _ => false
  end.

Definition count_significant (values : list fval) : nat :=
  length (filter (fun v => is_significant v = true) values).

(** A cell whose raw p-value is at or below the level. *)
Definition at_most (alpha : Q) (v : fval) : bool :=
  match v with
  | FNum p => Qle_bool p alpha
  | _ => false
  end.

Definition count_at_most (alpha : Q) (values : list fval) : nat :=
  length (filter (fun v => at_most alpha v = true) values).

(** The index dimensions of a grid with their sizes, and its index
    coordinates: everything that is not on the sample dimension [d]. *)
Definition index_sizes (da : DataArray) (d : string) : list (string * nat) :=
  filter (fun p => p.1 <> d) (sizes da).

Definition index_coords (da : DataArray) (d : string)
  : list (string * list Z) :=
  filter (fun c => c.1 <> d) (coords da).

Definition sample_length (da : DataArray) (d : string) : nat :=
  default 0%nat (assoc d (sizes da)).

(** A valid pair of input grids: both have the sample dimension, and they
    share the index dimensions, with the same extents and coordinates. *)
Definition valid_pair (da1 da2 : DataArray) (d : string) : Prop :=
  wf da1 /\ wf da2 /\ d ∈ dims da1 /\ d ∈ dims da2 /\
  index_sizes da1 d = index_sizes da2 d /\
  index_coords da1 d = index_coords da2 d.

(** ** Calls on a store of objects

    To state what a call does to its arguments, the arrays live in a
    store, [da1] and [da2] are references into it, and a call returns the
    store it leaves behind. *)

Abbreviation store := (gmap nat DataArray).

Definition St (A : Type) : Type := store -> store * result A.

Definition st_ret {A : Type} (a : A) : St A := fun h => (h, Ok a).

Definition st_bind {A B : Type} (m : St A) (k : A -> St B) : St B :=
  fun h =>
    match m h with
    | (h', Ok a) => k a h'
    | (h', Raise e) => (h', Raise e)
    end.

(** A computation without effect on the store. *)
Definition lift {A : Type} (m : result A) : St A := fun h => (h, m).

(** Reading through a reference. (A Python program holds no reference
    to an object that does not exist; the model stops there.) *)
Definition deref (r : nat) : St DataArray :=
  fun h =>
    match h !! r with
    | Some da => (h, Ok da)
    | None => (h, Raise (NameError "unbound reference"))
    end.

(** A new object, at a reference the store does not use yet. *)
Definition new_object (da : DataArray) : St nat :=
  fun h => let r := fresh (dom h) in (<[r := da]> h, Ok r).

(** A write into the buffer of the object at [r], in place: what an
    assignment through a view of its values does. *)
Definition write_buffer (r : nat) (values : list fval) : St unit :=
  fun h => (alter (fun da => with_data da values) r h, Ok ()).

(** [r.values = new] on the object at [r]. *)
Definition assign_values (r : nat) (new : ndarray) : St unit :=
  fun h =>
    match h !! r with
    | Some da =>
        match set_values da new with
        | Ok da' => (<[r := da']> h, Ok ())
        | Raise e => (h, Raise e)
        end
    | None => (h, Raise (NameError "unbound reference"))
    end.

Notation "x ←← m ; k" := (st_bind m (fun x => k))
  (at level 20, m at level 100, k at level 200, only parsing).

Section Calls.
Context `{Stats}.

Definition ttest_2samp_call (da1 da2 : nat) (paired : bool) (dim : dim_arg)
    (global_alpha : Q) : St nat :=
  let dim := dim_list dim in
  a ←← deref da1;
  b ←← deref da2;
  _ ←← lift (load_global "xr");
  computed ←← lift (apply_ufunc (_ttest paired) a b dim);
  result ←← new_object computed;
  let shape := shape (variable computed) in
  (* [values] is a view of the buffer of [result]: the assignment to
     [values[notnull]] below writes into [result] *)
  let values := ravel (variable computed) in
  _ ←← lift (load_global "np");
  let notnull := isfinite <$> values in
  _ ←← lift (load_global "sm");
  let p_adjust :=
    (multitest.multipletests
       (as_rationals (np.compress notnull values)) global_alpha).1 in
  values ←← lift (np.setitem_mask values notnull (of_bool <$> p_adjust));
  _ ←← write_buffer result values;
  new ←← lift (reshape values shape);
  _ ←← assign_values result new;
  st_ret result.

Definition mannwhitney_call (da1 da2 : nat) (paired : bool) (dim : dim_arg)
    (global_alpha : Q) : St nat :=
  let dim := dim_list dim in
  a ←← deref da1;
  b ←← deref da2;
  _ ←← lift (load_global "xr");
  computed ←← lift (apply_ufunc (_mannwhitneyu paired) a b dim);
  result ←← new_object computed;
  let shape := shape (variable computed) in
  let values := ravel (variable computed) in
  _ ←← lift (load_global "np");
  let notnull := isfinite <$> values in
  _ ←← lift (load_global "sm");
  let p_adjust :=
    (multitest.multipletests
       (as_rationals (np.compress notnull values)) global_alpha).1 in
  values ←← lift (np.setitem_mask values notnull (of_bool <$> p_adjust));
  _ ←← write_buffer result values;
  new ←← lift (reshape values shape);
  _ ←← assign_values result new;
  st_ret result.

Definition call (op : operation) (da1 da2 : nat) (paired : bool)
    (dim : dim_arg) (global_alpha : Q) : St nat :=
  match op with
  | TTest => ttest_2samp_call da1 da2 paired dim global_alpha
  | RankTest => mannwhitney_call da1 da2 paired dim global_alpha
  end.

End Calls.

(** The values an operation returns, from the raw p-values. *)
Definition corrected (values : list fval) (alpha : Q) : list fval :=
  np.putmask values (isfinite <$> values)
    (of_bool <$> reject_of (family values) alpha).

(** The raw p-values of [exA] against [exB] under the toy tests, and the
    grid both operations return for them at level 0.05. *)
Definition ex_raw : DataArray :=
  mkDataArray ["x"] [("x", [10; 20; 30]%Z)]
    (NDArray [3%nat] [FNum (1 # 1601); FNum 1; FNaN]).

Definition ex_out : DataArray :=
  mkDataArray ["x"] [("x", [10; 20; 30]%Z)]
    (NDArray [3%nat] [FNum 1; FNum 0; FNaN]).

(** A store holding [exA] and [exB]. *)
Definition ex_store : store := <[1%nat := exA]> (<[2%nat := exB]> ∅).

(** A grid with one sample per cell: no test is defined on it, and the
    raw p-values of the grid against itself are all undefined. *)
Definition exN : DataArray :=
  mkDataArray ["x"; "time"] [("x", [10; 20]%Z)]
    (NDArray [2; 1]%nat (zs [3; 4]%Z)).

Definition exN_raw : DataArray :=
  mkDataArray ["x"] [("x", [10; 20]%Z)] (NDArray [2%nat] [FNaN; FNaN]).

(** [exC] with other labels along [x], and a grid with two cells only. *)
Definition exC_relabelled : DataArray :=
  mkDataArray ["x"; "time"] [("x", [10; 20; 31]%Z)]
    (NDArray [3; 3]%nat (zs [5; 5; 5; 1; 2; 3; 1; 2; 3]%Z)).

Definition exShort : DataArray :=
  mkDataArray ["x"; "time"] []
    (NDArray [2; 3]%nat (zs [5; 5; 5; 1; 2; 3]%Z)).

(** A grid against which two cells of [exA] differ clearly, the raw
    p-values of the pair under the toy tests, and the grid returned for
    them at level 0.05. *)
Definition exE : DataArray :=
  mkDataArray ["x"; "time"] [("x", [10; 20; 30]%Z)]
    (NDArray [3; 4]%nat (zs [10; 10; 10; 10; 1; 2; 3; 14; 1; 2; 3; 4]%Z)).

Definition exE_raw : DataArray :=
  mkDataArray ["x"] [("x", [10; 20; 30]%Z)]
    (NDArray [3%nat] [FNum (1 # 1601); FNum (1 # 197); FNaN]).

Definition exE_out : DataArray :=
  mkDataArray ["x"] [("x", [10; 20; 30]%Z)]
    (NDArray [3%nat] [FNum 1; FNum 1; FNaN]).

(** Two grids with a single cell, constant 0 and constant 10. *)
Definition exZero : DataArray :=
  mkDataArray ["x"; "time"] [("x", [10%Z])]
    (NDArray [1; 3]%nat (zs [0; 0; 0]%Z)).

Definition exTen : DataArray :=
  mkDataArray ["x"; "time"] [("x", [10%Z])]
    (NDArray [1; 3]%nat (zs [10; 10; 10]%Z)).

(** The raw p-value of [exZero] against [exTen] under the toy tests, and
    the grid returned at level 0.05. *)
Definition exTen_raw : DataArray :=
  mkDataArray ["x"] [("x", [10%Z])] (NDArray [1%nat] [FNum (1 # 901)]).

Definition exTen_out : DataArray :=
  mkDataArray ["x"] [("x", [10%Z])] (NDArray [1%nat] [FNum 1]).

(** The sample dimension is the last dimension of the grid. *)
Definition sample_last (da : DataArray) (d : string) : Prop :=
  dims da = (index_sizes da d).*1 ++ [d].

(** Each of the four tests gives the same p-value for its two samples in
    either order ([mannwhitneyu]: within the call on the two arrays in
    that order). *)
Definition symmetric_tests `{Stats} : Prop :=
  forall x y,
    ttest_rel_1d x y = ttest_rel_1d y x /\
    ttest_ind_1d x y = ttest_ind_1d y x /\
    (forall a b, mannwhitneyu_in a b x y = mannwhitneyu_in b a y x) /\
    wilcoxon_1d x y = wilcoxon_1d y x.

(** * Properties *)

(** ** Order facts on rationals *)

Lemma Qle_bool_false (x y : Q) : Qle_bool x y = false -> (y < x)%Q.
Proof.
  intros Hf. apply Qnot_le_lt. intros Hle.
  apply Qle_bool_iff in Hle. congruence.
Qed.

Lemma Qle_bool_total (x y : Q) : Qle_bool x y = false -> (y <= x)%Q.
Proof. intros Hf. apply Qlt_le_weak, Qle_bool_false, Hf. Qed.

(** ** Filters *)

Lemma filter_none {A : Type} (P : A -> Prop) `{forall a, Decision (P a)} l :
  Forall (fun a => ~ P a) l -> filter P l = [].
Proof.
  induction 1 as [|a l Ha _ IH]; [done|].
  rewrite filter_cons, decide_False by done. exact IH.
Qed.

Lemma filter_length_le {A B : Type} (P : A -> Prop) (R : B -> Prop)
    `{forall a, Decision (P a)} `{forall b, Decision (R b)} l k :
  Forall2 (fun a b => P a -> R b) l k ->
  (length (filter P l) <= length (filter R k))%nat.
Proof.
  induction 1 as [|a b l k Hab _ IH]; [done|].
  rewrite !filter_cons.
  destruct (decide (P a)) as [HP|HP].
  - rewrite decide_True by auto. simpl. lia.
  - destruct (decide (R b)); simpl; lia.
Qed.

(** ** Sorting *)

Section Sorting.

Lemma insert_sorted_perm p l : BH.insert_sorted p l ≡ₚ p :: l.
Proof.
  induction l as [|h t IH]; simpl; [done|].
  destruct (Qle_bool p h); [done|].
  rewrite IH. apply Permutation_swap.
Qed.

Lemma sort_ascending_perm l : BH.sort_ascending l ≡ₚ l.
Proof.
  induction l as [|h t IH]; simpl; [done|].
  rewrite insert_sorted_perm. by f_equiv.
Qed.

Lemma sort_ascending_length l : length (BH.sort_ascending l) = length l.
Proof. by rewrite sort_ascending_perm. Qed.

Lemma insert_sorted_sorted p l :
  StronglySorted Qle l -> StronglySorted Qle (BH.insert_sorted p l).
Proof.
  induction 1 as [|h t Hs IH Hall]; simpl.
  - repeat constructor.
  - destruct (Qle_bool p h) eqn:E.
    + apply Qle_bool_iff in E. constructor; [by constructor|].
      constructor; [done|].
      eapply Forall_impl; [exact Hall|]. intros z Hz. by eapply Qle_trans.
    + apply Qle_bool_total in E. constructor; [done|].
      rewrite insert_sorted_perm. by constructor.
Qed.

Lemma sort_ascending_sorted l : StronglySorted Qle (BH.sort_ascending l).
Proof.
  induction l as [|h t IH]; simpl; [constructor|].
  by apply insert_sorted_sorted.
Qed.

Lemma insert_key_snd kv l :
  (np.insert_key kv l).*2 = BH.insert_sorted kv.2 (l.*2).
Proof.
  induction l as [|h t IH]; simpl; [done|].
  destruct (Qle_bool kv.2 h.2); simpl; [done|]. f_equal. exact IH.
Qed.

Lemma sort_keys_snd l : (np.sort_keys l).*2 = BH.sort_ascending (l.*2).
Proof.
  induction l as [|h t IH]; [done|].
  change (np.sort_keys (h :: t)) with (np.insert_key h (np.sort_keys t)).
  rewrite insert_key_snd, IH. done.
Qed.

Lemma insert_key_perm kv l : np.insert_key kv l ≡ₚ kv :: l.
Proof.
  induction l as [|h t IH]; simpl; [done|].
  destruct (Qle_bool kv.2 h.2); [done|].
  rewrite IH. apply Permutation_swap.
Qed.

Lemma sort_keys_perm l : np.sort_keys l ≡ₚ l.
Proof.
  induction l as [|h t IH]; simpl; [done|].
  rewrite insert_key_perm. by f_equiv.
Qed.

Lemma enumerate_fst a : (np.enumerate a).*1 = seq 0 (length a).
Proof. unfold np.enumerate. apply fst_zip. by rewrite length_seq. Qed.

Lemma enumerate_snd a : (np.enumerate a).*2 = a.
Proof. unfold np.enumerate. apply snd_zip. by rewrite length_seq. Qed.

Lemma enumerate_lookup a :
  Forall (fun kv => a !! kv.1 = Some kv.2) (np.enumerate a).
Proof.
  unfold np.enumerate. apply Forall_forall. intros [i v] Hin.
  apply list_elem_of_lookup in Hin as [k Hk].
  apply lookup_zip_with_Some in Hk as (i' & v' & [= <- <-] & Hi & Hv).
  apply lookup_seq in Hi as [-> _]. done.
Qed.

Lemma argsort_perm a : np.argsort a ≡ₚ seq 0 (length a).
Proof.
  unfold np.argsort. rewrite sort_keys_perm. by rewrite enumerate_fst.
Qed.

Lemma argsort_length a : length (np.argsort a) = length a.
Proof. by rewrite argsort_perm, length_seq. Qed.

Lemma take_argsort a : np.take a (np.argsort a) = BH.sort_ascending a.
Proof.
  rewrite <- (enumerate_snd a) at 3. rewrite <- sort_keys_snd.
  unfold np.take, np.argsort. rewrite <- list_fmap_compose.
  apply Forall_fmap_ext_1.
  assert (Hall : Forall (fun kv => a !! kv.1 = Some kv.2)
                        (np.sort_keys (np.enumerate a))).
  { rewrite sort_keys_perm. apply enumerate_lookup. }
  eapply Forall_impl; [exact Hall|]. intros [i v] Hl; simpl in *.
  by apply nth_lookup_Some.
Qed.

End Sorting.

(** ** Scattering through a permutation *)

Section Scatter.
Context {A : Type}.

Lemma foldl_scatter_length ps (out : list A) :
  length (foldl np.scatter_step out ps) = length out.
Proof.
  revert out. induction ps as [|[i x] ps IH]; intros out; simpl; [done|].
  rewrite IH. apply length_insert.
Qed.

Lemma foldl_scatter_other ps (out : list A) j :
  j ∉ ps.*1 -> foldl np.scatter_step out ps !! j = out !! j.
Proof.
  revert out. induction ps as [|[i x] ps IH]; intros out Hj; simpl; [done|].
  rewrite fmap_cons, not_elem_of_cons in Hj. destruct Hj as [Hne Hj].
  rewrite IH by done. apply list_lookup_insert_ne. done.
Qed.

Lemma foldl_scatter_lookup ps (out : list A) k i x :
  NoDup ps.*1 -> Forall (fun p => p.1 < length out)%nat ps ->
  ps !! k = Some (i, x) -> foldl np.scatter_step out ps !! i = Some x.
Proof.
  revert out k. induction ps as [|[i0 x0] ps IH]; intros out k Hnd Hlt Hk.
  - done.
  - rewrite fmap_cons in Hnd. apply NoDup_cons in Hnd as [Hnotin Hnd].
    apply Forall_cons in Hlt as [Hi0 Hlt]. simpl in *.
    destruct k as [|k]; simpl in Hk.
    + injection Hk as -> ->. rewrite foldl_scatter_other by done.
      apply list_lookup_insert_eq. done.
    + eapply IH; [done| |exact Hk].
      eapply Forall_impl; [exact Hlt|]. intros p Hp.
      unfold np.scatter_step. by rewrite length_insert.
Qed.

Lemma scatter_length (d : A) ind src :
  length (np.scatter d ind src) = length src.
Proof.
  unfold np.scatter. rewrite foldl_scatter_length. apply length_replicate.
Qed.

Lemma scatter_lookup (d : A) ind src k i x :
  ind ≡ₚ seq 0 (length src) ->
  ind !! k = Some i -> src !! k = Some x ->
  np.scatter d ind src !! i = Some x.
Proof.
  intros Hperm Hi Hx. unfold np.scatter.
  assert (Hlen : length ind = length src).
  { by rewrite Hperm, length_seq. }
  eapply foldl_scatter_lookup with (k := k).
  - rewrite fst_zip by lia. rewrite Hperm. apply NoDup_seq.
  - apply Forall_forall. intros [j y] Hin. simpl.
    rewrite length_replicate.
    apply elem_of_zip_l in Hin. rewrite Hperm in Hin.
    apply elem_of_seq in Hin. lia.
  - apply lookup_zip_with_Some. eauto.
Qed.

End Scatter.

(** ** Positions of a mask *)

Lemma nonzero_from_spec k mask i :
  i ∈ np.nonzero_from k mask <->
  (k <= i)%nat /\ mask !! (i - k)%nat = Some true.
Proof.
  revert k. induction mask as [|b mask IH]; intros k; simpl.
  - rewrite elem_of_nil. split; [done|]. by intros [_ ?].
  - assert (Hrec : i ∈ np.nonzero_from (S k) mask <->
                   (k < i)%nat /\ (b :: mask) !! (i - k)%nat = Some true).
    { rewrite IH. split.
      - intros [Hle Hl]. split; [lia|].
        replace (i - k)%nat with (S (i - S k)) by lia. done.
      - intros [Hlt Hl]. split; [lia|].
        replace (i - k)%nat with (S (i - S k)) in Hl by lia. done. }
    destruct b.
    + rewrite elem_of_cons, Hrec. split.
      * intros [->|[Hlt Hl]]; [|split; [lia|done]].
        split; [lia|]. by rewrite Nat.sub_diag.
      * intros [Hle Hl]. destruct (decide (i = k)) as [->|Hne]; [by left|].
        right. split; [lia|done].
    + rewrite Hrec. split.
      * intros [Hlt Hl]. split; [lia|done].
      * intros [Hle Hl]. destruct (decide (i = k)) as [->|Hne].
        -- rewrite Nat.sub_diag in Hl. done.
        -- split; [lia|done].
Qed.

Lemma nonzero_spec mask i : i ∈ np.nonzero mask <-> mask !! i = Some true.
Proof.
  unfold np.nonzero. rewrite nonzero_from_spec, Nat.sub_0_r.
  split; [by intros [_ ?]|]. intros; split; [lia|done].
Qed.

Lemma any_spec mask : np.any mask = true <-> exists i, mask !! i = Some true.
Proof.
  unfold np.any. induction mask as [|b mask IH]; simpl.
  - split; [done|]. intros [i Hi]. done.
  - destruct b; simpl.
    + split; [|done]. intros _. by exists 0%nat.
    + rewrite IH. split.
      * intros [i Hi]. by exists (S i).
      * intros [[|i] Hi]; [done|]. by exists i.
Qed.

Lemma max_nonzero_spec mask :
  np.any mask = true ->
  mask !! max_list (np.nonzero mask) = Some true /\
  forall j, mask !! j = Some true -> (j <= max_list (np.nonzero mask))%nat.
Proof.
  intros Hany. apply any_spec in Hany as [i Hi]. split.
  - apply nonzero_spec, max_list_elem_of.
    apply nonzero_spec in Hi. intros Hnil. rewrite Hnil in Hi.
    by apply elem_of_nil in Hi.
  - intros j Hj. by apply max_list_elem_of_le, nonzero_spec.
Qed.

(** ** Last element of a filtered range *)

Lemma last_filter_seq_Some (P : nat -> Prop) `{forall i, Decision (P i)} a n x :
  last (filter P (seq a n)) = Some x ->
  P x /\ (a <= x < a + n)%nat /\
  forall j, (x < j < a + n)%nat -> ~ P j.
Proof.
  induction n as [|n IH]; [done|].
  rewrite seq_S, filter_app, last_app. simpl.
  rewrite filter_cons, filter_nil. destruct (decide (P (a + n)%nat)) as [HP|HP].
  - simpl. intros [= <-]. repeat split; [done|lia|lia|]. intros j ?; lia.
  - simpl. intros Hl. destruct (IH Hl) as (HPx & Hr & Hmax).
    repeat split; [done|lia|lia|].
    intros j Hj. destruct (decide (j = a + n)%nat) as [->|Hne]; [done|].
    apply Hmax. lia.
Qed.

Lemma last_filter_seq_None (P : nat -> Prop) `{forall i, Decision (P i)} a n :
  last (filter P (seq a n)) = None ->
  forall j, (a <= j < a + n)%nat -> ~ P j.
Proof.
  induction n as [|n IH]; [intros _ j ?; lia|].
  rewrite seq_S, filter_app, last_app. simpl.
  rewrite filter_cons, filter_nil. destruct (decide (P (a + n)%nat)) as [HP|HP].
  - done.
  - simpl. intros Hl j Hj.
    destruct (decide (j = a + n)%nat) as [->|Hne]; [done|].
    apply (IH Hl). lia.
Qed.

(** ** The reject vector of the library against the worded procedure *)

Section StepUp.
Variable alpha : Q.

Lemma ecdf_lookup m i :
  (i < m)%nat -> multitest._ecdf m !! i = Some (Z.of_nat (S i) # Pos.of_nat m).
Proof.
  intros Hi. unfold multitest._ecdf. rewrite list_lookup_fmap.
  rewrite lookup_seq_lt by done. done.
Qed.

Lemma ecdf_length m : length (multitest._ecdf m) = m.
Proof. unfold multitest._ecdf. by rewrite length_fmap, length_seq. Qed.

(** The first comparison of [fdrcorrection] is the rank test of the
    specification, rank by rank. *)
Lemma compare_lookup (srt : list Q) i :
  (i < length srt)%nat ->
  zip_with (fun p e => Qle_bool p (e * alpha)) srt
           (multitest._ecdf (length srt)) !! i
  = Some (BH.satisfies srt alpha (S i)).
Proof.
  intros Hi. rewrite lookup_zip_with.
  destruct (lookup_lt_is_Some_2 srt i Hi) as [p Hp].
  rewrite Hp, ecdf_lookup by done. simpl.
  unfold BH.satisfies. simpl. rewrite Nat.sub_0_r, Hp. done.
Qed.

Lemma compare_length (srt : list Q) :
  length (zip_with (fun p e => Qle_bool p (e * alpha)) srt
                   (multitest._ecdf (length srt))) = length srt.
Proof. rewrite length_zip_with, ecdf_length. lia. Qed.

Lemma satisfies_lookup srt K :
  BH.satisfies srt alpha (S K) = true ->
  exists p, srt !! K = Some p /\
            (p <= (Z.of_nat (S K) # Pos.of_nat (length srt)) * alpha)%Q.
Proof.
  unfold BH.satisfies. simpl. rewrite Nat.sub_0_r.
  destruct (srt !! K) as [p|]; [|done].
  intros Hs. apply Qle_bool_iff in Hs. eauto.
Qed.

Lemma fdr_reject_length srt :
  length (multitest.fdr_reject srt alpha) = length srt.
Proof.
  unfold multitest.fdr_reject.
  destruct (np.any _) eqn:Hany; [|apply compare_length].
  destruct (max_nonzero_spec _ Hany) as [HK _].
  apply lookup_lt_Some in HK. rewrite compare_length in HK.
  rewrite length_app, length_replicate, length_drop, compare_length. lia.
Qed.

(** Step-up: position [i] of the sorted family is rejected exactly when
    some rank at or after it satisfies the inequality. *)
Lemma fdr_reject_lookup srt i b :
  multitest.fdr_reject srt alpha !! i = Some b ->
  b = true <-> exists K, (i <= K)%nat /\ BH.satisfies srt alpha (S K) = true.
Proof.
  intros Hl.
  assert (Hi : (i < length srt)%nat).
  { apply lookup_lt_Some in Hl. by rewrite fdr_reject_length in Hl. }
  revert Hl. unfold multitest.fdr_reject.
  set (r0 := zip_with _ srt _).
  assert (Hr0 : forall k, (k < length srt)%nat ->
                          r0 !! k = Some (BH.satisfies srt alpha (S k))).
  { intros k Hk. by apply compare_lookup. }
  assert (Hsat : forall K, BH.satisfies srt alpha (S K) = true ->
                           r0 !! K = Some true).
  { intros K HK. destruct (satisfies_lookup _ _ HK) as (p & Hp & _).
    apply lookup_lt_Some in Hp. rewrite Hr0 by done. by rewrite HK. }
  destruct (np.any r0) eqn:Hany.
  - destruct (max_nonzero_spec _ Hany) as [HK Hmax].
    set (K := max_list (np.nonzero r0)) in *.
    assert (HKlt : (K < length srt)%nat).
    { apply lookup_lt_Some in HK. unfold r0 in HK.
      by rewrite compare_length in HK. }
    destruct (decide (i < K)%nat) as [Hlt|Hge].
    + rewrite lookup_app_l by (rewrite length_replicate; lia).
      rewrite lookup_replicate_2 by done. intros [= <-].
      split; [|done]. intros _. exists K. split; [lia|].
      rewrite Hr0 in HK by done. congruence.
    + rewrite lookup_app_r by (rewrite length_replicate; lia).
      rewrite length_replicate, lookup_drop.
      replace (K + (i - K))%nat with i by lia.
      rewrite Hr0 by done. intros [= <-]. split.
      * intros Hs. exists i. split; [lia|done].
      * intros (K' & Hle & Hs). apply Hsat in Hs.
        assert (K' <= K)%nat by by apply Hmax.
        assert (i = K) as -> by lia.
        rewrite Hr0 in HK by done. congruence.
  - rewrite Hr0 by done. intros [= <-]. split.
    + intros Hs. exists i. split; [lia|done].
    + intros (K' & _ & Hs). apply Hsat in Hs.
      assert (np.any r0 = true) by (apply any_spec; eauto). congruence.
Qed.

Lemma largest_rank_Some srt r :
  BH.largest_rank srt alpha = Some r ->
  exists K, r = S K /\ BH.satisfies srt alpha (S K) = true /\
            forall K', BH.satisfies srt alpha (S K') = true -> (K' <= K)%nat.
Proof.
  unfold BH.largest_rank. intros Hl.
  apply last_filter_seq_Some in Hl as (Hs & Hr & Hmax).
  destruct r as [|K]; [lia|]. exists K. split; [done|]. split; [done|].
  intros K' Hs'. destruct (decide (K' <= K)%nat) as [|Hgt]; [done|].
  exfalso. apply (Hmax (S K')); [|done].
  destruct (satisfies_lookup _ _ Hs') as (p & Hp & _).
  apply lookup_lt_Some in Hp. lia.
Qed.

Lemma largest_rank_None srt K :
  BH.largest_rank srt alpha = None -> BH.satisfies srt alpha (S K) = false.
Proof.
  unfold BH.largest_rank. intros Hl.
  destruct (BH.satisfies srt alpha (S K)) eqn:Hs; [|done].
  exfalso. eapply (last_filter_seq_None _ _ _ Hl (S K)); [|done].
  destruct (satisfies_lookup _ _ Hs) as (p & Hp & _).
  apply lookup_lt_Some in Hp. lia.
Qed.

End StepUp.

Lemma sorted_lookup_le (l : list Q) i j x y :
  StronglySorted Qle l -> (i <= j)%nat ->
  l !! i = Some x -> l !! j = Some y -> (x <= y)%Q.
Proof.
  intros Hs. revert i j. induction Hs as [|h t Hs IH Hall]; intros i j Hij Hi Hj.
  - done.
  - destruct i as [|i], j as [|j]; simpl in *.
    + injection Hi as <-. injection Hj as <-. apply Qle_refl.
    + injection Hi as <-. rewrite Forall_forall in Hall. apply Hall.
      by eapply list_elem_of_lookup_2.
    + lia.
    + eapply IH; [|done..]. lia.
Qed.

Lemma rank_fraction_mono (i j m : nat) :
  (i <= j)%nat -> (Z.of_nat i # Pos.of_nat m <= Z.of_nat j # Pos.of_nat m)%Q.
Proof.
  intros Hij. unfold Qle. simpl. apply Z.mul_le_mono_nonneg_r; lia.
Qed.

Lemma rank_fraction_le_1 (i m : nat) :
  (i <= m)%nat -> (0 < m)%nat -> (Z.of_nat i # Pos.of_nat m <= 1)%Q.
Proof.
  intros Him Hm. unfold Qle. simpl.
  rewrite <- (positive_nat_Z (Pos.of_nat m)), Nat2Pos.id by lia. lia.
Qed.

Lemma threshold_neg (i m : nat) (alpha : Q) :
  (alpha < 0)%Q -> ((Z.of_nat (S i) # Pos.of_nat m) * alpha < 0)%Q.
Proof. unfold Qlt. simpl. nia. Qed.

(** ** [multipletests] *)

Lemma multipletests_eq pvals alpha :
  multitest.multipletests pvals alpha
  = (reject_of pvals alpha, pvals_corrected_of pvals).
Proof.
  unfold multitest.multipletests, multitest.fdrcorrection.
  by rewrite take_argsort.
Qed.

Lemma reject_of_length pvals alpha :
  length (reject_of pvals alpha) = length pvals.
Proof.
  unfold reject_of.
  by rewrite scatter_length, fdr_reject_length, sort_ascending_length.
Qed.

(** The decision stored for cell [j] is the one computed at the position
    [k] that cell [j] takes in the sorted family. *)
Lemma reject_of_lookup pvals alpha j p :
  pvals !! j = Some p ->
  exists k b,
    BH.sort_ascending pvals !! k = Some p /\
    multitest.fdr_reject (BH.sort_ascending pvals) alpha !! k = Some b /\
    reject_of pvals alpha !! j = Some b.
Proof.
  intros Hj.
  assert (Hin : j ∈ np.argsort pvals).
  { rewrite argsort_perm. apply elem_of_seq.
    apply lookup_lt_Some in Hj. lia. }
  apply list_elem_of_lookup in Hin as [k Hk].
  assert (Hklt : (k < length pvals)%nat).
  { apply lookup_lt_Some in Hk. by rewrite argsort_length in Hk. }
  destruct (lookup_lt_is_Some_2
              (multitest.fdr_reject (BH.sort_ascending pvals) alpha) k)
    as [b Hb].
  { by rewrite fdr_reject_length, sort_ascending_length. }
  exists k, b. split; [|split; [done|]].
  - rewrite <- take_argsort. unfold np.take.
    rewrite list_lookup_fmap, Hk. simpl. f_equal.
    by apply nth_lookup_Some.
  - unfold reject_of. eapply scatter_lookup; [|exact Hk|exact Hb].
    by rewrite fdr_reject_length, sort_ascending_length, argsort_perm.
Qed.

(** The decision computed at a position of the sorted family is the
    marking of the worded procedure for the p-value at that position. *)
Lemma fdr_reject_significant pvals alpha k q b :
  BH.regular alpha pvals ->
  BH.sort_ascending pvals !! k = Some q ->
  multitest.fdr_reject (BH.sort_ascending pvals) alpha !! k = Some b ->
  b = BH.significant pvals alpha q.
Proof.
  intros Hreg Hk Hb. apply eq_true_iff_eq.
  rewrite (fdr_reject_lookup _ _ _ _ Hb).
  unfold BH.significant, BH.cutoff.
  set (srt := BH.sort_ascending pvals) in *.
  destruct (BH.largest_rank srt alpha) as [r|] eqn:Hr; simpl.
  - destruct (largest_rank_Some _ _ _ Hr) as (K & -> & HsK & Hmax).
    simpl. rewrite Nat.sub_0_r.
    destruct (satisfies_lookup _ _ _ HsK) as (c & Hc & Hcle).
    rewrite Hc. rewrite Qle_bool_iff. split.
    + intros (K' & Hle & Hs). apply Hmax in Hs.
      eapply sorted_lookup_le; [apply sort_ascending_sorted| |done..]. lia.
    + intros Hpc. destruct (decide (k <= K)%nat) as [|Hgt]; [by eauto|].
      exists k. split; [done|].
      assert (Hal : (0 <= alpha)%Q).
      { destruct Hreg as [|Hall]; [done|].
        destruct (Qlt_le_dec alpha 0) as [Hneg|]; [|done]. exfalso.
        assert (Hc0 : (0 <= c)%Q).
        { rewrite Forall_forall in Hall. apply Hall.
          rewrite <- (sort_ascending_perm pvals).
          by eapply list_elem_of_lookup_2. }
        pose proof (threshold_neg K (length srt) alpha Hneg) as Hth.
        eapply Qle_not_lt; [exact Hc0|].
        eapply Qle_lt_trans; [exact Hcle|exact Hth]. }
      unfold BH.satisfies. simpl. rewrite Nat.sub_0_r, Hk.
      apply Qle_bool_iff.
      eapply Qle_trans; [exact Hpc|]. eapply Qle_trans; [exact Hcle|].
      apply Qmult_le_compat_r; [|done]. apply rank_fraction_mono. lia.
  - split; [|done]. intros (K' & _ & Hs).
    rewrite (largest_rank_None _ _ _ Hr) in Hs. done.
Qed.

(** The library's reject vector marks exactly the p-values at or below
    the p-value of the largest rank that satisfies the inequality. *)
Lemma reject_of_significant pvals alpha j p :
  BH.regular alpha pvals ->
  pvals !! j = Some p ->
  reject_of pvals alpha !! j = Some (BH.significant pvals alpha p).
Proof.
  intros Hreg Hj.
  destruct (reject_of_lookup pvals alpha j p Hj) as (k & b & Hk & Hb & ->).
  f_equal. by eapply fdr_reject_significant.
Qed.

(** ** The order of equal p-values does not matter

    [np.argsort] does not promise an order among equal values. Whatever
    indices sort the family, the reject vector is the same. *)

Lemma sorted_count_below (l : list Q) i x :
  StronglySorted Qle l -> l !! i = Some x ->
  (length (filter (fun y => Qle_bool x y = false) l) <= i)%nat.
Proof.
  intros Hs. revert i. induction Hs as [|h t Hs IH Hall]; intros i Hi; [done|].
  rewrite filter_cons. destruct i as [|i]; simpl in Hi.
  - injection Hi as ->.
    rewrite decide_False.
    2:{ rewrite (proj2 (Qle_bool_iff x x)); [done|apply Qle_refl]. }
    rewrite filter_none; [done|].
    eapply Forall_impl; [exact Hall|]. intros y Hy.
    apply Qle_bool_iff in Hy. congruence.
  - specialize (IH i Hi). destruct (decide _); simpl; lia.
Qed.

Lemma sorted_count_upto (l : list Q) i x :
  StronglySorted Qle l -> l !! i = Some x ->
  (i < length (filter (fun y => Qle_bool y x = true) l))%nat.
Proof.
  intros Hs. revert i. induction Hs as [|h t Hs IH Hall]; intros i Hi; [done|].
  rewrite filter_cons. destruct i as [|i]; simpl in Hi.
  - injection Hi as ->.
    rewrite decide_True by (apply Qle_bool_iff, Qle_refl). simpl. lia.
  - specialize (IH i Hi).
    rewrite decide_True; [simpl; lia|].
    apply Qle_bool_iff. rewrite Forall_forall in Hall. apply Hall.
    by eapply list_elem_of_lookup_2.
Qed.

Lemma sorted_perm_lookup_le (l1 l2 : list Q) i x y :
  StronglySorted Qle l1 -> StronglySorted Qle l2 -> l1 ≡ₚ l2 ->
  l1 !! i = Some x -> l2 !! i = Some y -> (x <= y)%Q.
Proof.
  intros Hs1 Hs2 Hp Hx Hy.
  destruct (Qlt_le_dec y x) as [Hlt|]; [exfalso|done].
  pose proof (sorted_count_below l1 i x Hs1 Hx) as Hlow.
  pose proof (sorted_count_upto l2 i y Hs2 Hy) as Hup.
  rewrite <- Hp in Hup.
  assert (Hle : (length (filter (fun z => Qle_bool z y = true) l1)
                 <= length (filter (fun z => Qle_bool x z = false) l1))%nat).
  { apply filter_length_le. apply Forall2_same_length_lookup_2; [done|].
    intros k a b Ha Hb. rewrite Ha in Hb. injection Hb as <-.
    intros Hay. apply Qle_bool_iff in Hay.
    destruct (Qle_bool x a) eqn:E; [|done]. apply Qle_bool_iff in E.
    exfalso. apply (Qlt_irrefl y).
    eapply Qlt_le_trans; [exact Hlt|]. by eapply Qle_trans. }
  lia.
Qed.

Lemma sorted_perm_pointwise (l1 l2 : list Q) :
  StronglySorted Qle l1 -> StronglySorted Qle l2 -> l1 ≡ₚ l2 ->
  Forall2 Qeq l1 l2.
Proof.
  intros Hs1 Hs2 Hp.
  apply Forall2_same_length_lookup_2; [by rewrite Hp|].
  intros i x y Hx Hy. apply Qle_antisym.
  - by eapply (sorted_perm_lookup_le l1 l2).
  - by eapply (sorted_perm_lookup_le l2 l1).
Qed.

Lemma Qle_bool_Qeq_l (p q t : Q) : (p == q)%Q -> Qle_bool p t = Qle_bool q t.
Proof.
  intros Hpq. apply eq_true_iff_eq. rewrite !Qle_bool_iff.
  split; intros Hle.
  - eapply Qle_trans; [|exact Hle]. apply Qle_lteq. right. by symmetry.
  - eapply Qle_trans; [|exact Hle]. apply Qle_lteq. by right.
Qed.

Lemma fdr_reject_pointwise srt srt' alpha :
  Forall2 Qeq srt srt' ->
  multitest.fdr_reject srt alpha = multitest.fdr_reject srt' alpha.
Proof.
  intros Heq. unfold multitest.fdr_reject.
  rewrite <- (Forall2_length _ _ _ Heq).
  assert (Hz : forall e,
    zip_with (fun p e => Qle_bool p (e * alpha)) srt e
    = zip_with (fun p e => Qle_bool p (e * alpha)) srt' e).
  { induction Heq as [|p q l l' Hpq _ IH]; intros [|e es]; simpl; try done.
    by rewrite IH, (Qle_bool_Qeq_l p q). }
  by rewrite Hz.
Qed.

Lemma take_seq_self (a : list Q) : np.take a (seq 0 (length a)) = a.
Proof.
  unfold np.take. apply list_eq. intros i.
  rewrite list_lookup_fmap.
  destruct (a !! i) as [x|] eqn:Hi.
  - rewrite lookup_seq_lt by by eapply lookup_lt_Some. simpl.
    f_equal. by apply nth_lookup_Some.
  - rewrite lookup_seq_ge; [done|]. by apply lookup_ge_None.
Qed.

Lemma take_perm (a : list Q) ind :
  ind ≡ₚ seq 0 (length a) -> np.take a ind ≡ₚ a.
Proof.
  intros Hp. rewrite <- (take_seq_self a) at 2.
  unfold np.take. by apply Permutation_map.
Qed.

(** For any indices that sort the family, the decision stored for a cell
    is the marking of the worded procedure. *)
Lemma reject_any_order pvals alpha sortind j p :
  BH.regular alpha pvals ->
  sortind ≡ₚ seq 0 (length pvals) ->
  StronglySorted Qle (np.take pvals sortind) ->
  pvals !! j = Some p ->
  np.scatter false sortind
    (multitest.fdr_reject (np.take pvals sortind) alpha) !! j
  = Some (BH.significant pvals alpha p).
Proof.
  intros Hreg Hperm Hsorted Hj.
  assert (Hpt : Forall2 Qeq (np.take pvals sortind) (BH.sort_ascending pvals)).
  { apply sorted_perm_pointwise; [done|apply sort_ascending_sorted|].
    by rewrite take_perm, sort_ascending_perm. }
  rewrite (fdr_reject_pointwise _ _ _ Hpt).
  assert (Hin : j ∈ sortind).
  { rewrite Hperm. apply elem_of_seq. apply lookup_lt_Some in Hj. lia. }
  apply list_elem_of_lookup in Hin as [k Hk].
  assert (Hklt : (k < length pvals)%nat).
  { apply lookup_lt_Some in Hk. by rewrite Hperm, length_seq in Hk. }
  destruct (lookup_lt_is_Some_2 (BH.sort_ascending pvals) k) as [q Hq].
  { by rewrite sort_ascending_length. }
  destruct (lookup_lt_is_Some_2
              (multitest.fdr_reject (BH.sort_ascending pvals) alpha) k)
    as [b Hb].
  { by rewrite fdr_reject_length, sort_ascending_length. }
  assert (Hpq : (p == q)%Q).
  { eapply (Forall2_lookup_lr _ _ _ k p q Hpt); [|done].
    unfold np.take. rewrite list_lookup_fmap, Hk. simpl. f_equal.
    by apply nth_lookup_Some. }
  rewrite (scatter_lookup false sortind _ k j b); [|
    by rewrite fdr_reject_length, sort_ascending_length|done|done].
  f_equal. rewrite (fdr_reject_significant _ _ _ _ _ Hreg Hq Hb).
  unfold BH.significant. destruct (BH.cutoff pvals alpha); [|done].
  symmetry. by apply Qle_bool_Qeq_l.
Qed.

(** ** Masks and the family of finite cells *)

Lemma as_rationals_cons v l :
  as_rationals (v :: l)
  = match v with FNum q => q :: as_rationals l | _ => as_rationals l end.
Proof. by destruct v. Qed.

Lemma family_eq values : family values = as_rationals values.
Proof.
  unfold family.
  induction values as [|v values IH]; [done|].
  rewrite fmap_cons, as_rationals_cons.
  destruct v; simpl; rewrite ?as_rationals_cons; by rewrite IH.
Qed.

Lemma family_length values :
  length (family values) = np.count_nonzero (isfinite <$> values).
Proof.
  rewrite family_eq. unfold np.count_nonzero.
  induction values as [|v values IH]; [done|].
  rewrite fmap_cons, as_rationals_cons, filter_cons.
  destruct v; simpl; by rewrite IH.
Qed.

Lemma family_finite_count values :
  length (family values)
  = length (filter (fun v => isfinite v = true) values).
Proof.
  rewrite family_eq.
  induction values as [|v values IH]; [done|].
  rewrite as_rationals_cons, filter_cons.
  destruct v; simpl; by rewrite IH.
Qed.

Lemma putmask_length {A : Type} (a : list A) mask new :
  length (np.putmask a mask new) = length a.
Proof.
  revert mask new. induction a as [|x a IH]; intros mask new; [done|].
  destruct mask as [|[] mask]; simpl; [done| |by rewrite IH].
  destruct new; simpl; by rewrite IH.
Qed.

(** An undefined cell is not written. *)
Lemma putmask_undefined values new i v :
  values !! i = Some v -> isfinite v = false ->
  np.putmask values (isfinite <$> values) new !! i = Some v.
Proof.
  revert new i. induction values as [|x values IH]; intros new i Hi Hv.
  - done.
  - destruct i as [|i]; simpl in Hi.
    + injection Hi as ->. simpl. rewrite Hv. done.
    + simpl. destruct (isfinite x); [destruct new|]; simpl; by apply IH.
Qed.

(** A defined cell receives the entry of the new values at its position
    in the family. *)
Lemma putmask_defined values (new : list fval) i p :
  length new = length (family values) ->
  values !! i = Some (FNum p) ->
  family values !! family_index values i = Some p /\
  np.putmask values (isfinite <$> values) new !! i
  = new !! family_index values i.
Proof.
  rewrite !family_eq. unfold family_index.
  revert new i. induction values as [|x values IH]; intros new i Hlen Hi.
  - done.
  - rewrite as_rationals_cons in *. destruct i as [|i]; simpl in Hi.
    + injection Hi as ->. destruct new; [done|]. done.
    + rewrite firstn_cons, as_rationals_cons.
      destruct x as [q| |neg]; simpl.
      * destruct new as [|y new]; [done|]. simpl.
        apply IH; [|done]. by injection Hlen.
      * by apply IH.
      * by apply IH.
Qed.

Lemma setitem_mask_Ok values (new : list fval) :
  length new = length (family values) ->
  np.setitem_mask values (isfinite <$> values) new
  = Ok (np.putmask values (isfinite <$> values) new).
Proof.
  intros Hlen. unfold np.setitem_mask.
  rewrite <- family_length. by rewrite decide_True.
Qed.

(** ** Cells of the corrected grid *)

Lemma corrected_length values alpha :
  length (corrected values alpha) = length values.
Proof. apply putmask_length. Qed.

Lemma corrected_undefined values alpha i v :
  values !! i = Some v -> isfinite v = false ->
  corrected values alpha !! i = Some v.
Proof. apply putmask_undefined. Qed.

Lemma corrected_defined values alpha i p :
  values !! i = Some (FNum p) ->
  exists b,
    reject_of (family values) alpha !! family_index values i = Some b /\
    corrected values alpha !! i = Some (of_bool b).
Proof.
  intros Hi. unfold corrected.
  destruct (putmask_defined values
              (of_bool <$> reject_of (family values) alpha) i p)
    as [Hfam ->]; [|done|].
  { by rewrite length_fmap, reject_of_length. }
  destruct (lookup_lt_is_Some_2 (reject_of (family values) alpha)
              (family_index values i)) as [b Hb].
  { rewrite reject_of_length. by eapply lookup_lt_Some. }
  exists b. split; [done|]. by rewrite list_lookup_fmap, Hb.
Qed.

Lemma corrected_significant values alpha i p :
  BH.regular alpha (family values) ->
  values !! i = Some (FNum p) ->
  corrected values alpha !! i
  = Some (of_bool (BH.significant (family values) alpha p)).
Proof.
  intros Hreg Hi.
  destruct (corrected_defined values alpha i p Hi) as (b & Hb & ->).
  destruct (putmask_defined values
              (of_bool <$> reject_of (family values) alpha) i p)
    as [Hfam _]; [|done|].
  { by rewrite length_fmap, reject_of_length. }
  rewrite (reject_of_significant _ _ _ _ Hreg Hfam) in Hb. congruence.
Qed.

(** A p-value marked significant is at or below the level. *)
Lemma significant_le_alpha pvals alpha p :
  BH.regular alpha pvals ->
  BH.significant pvals alpha p = true -> (p <= alpha)%Q.
Proof.
  intros Hreg. unfold BH.significant, BH.cutoff.
  set (srt := BH.sort_ascending pvals).
  destruct (BH.largest_rank srt alpha) as [r|] eqn:Hr; simpl; [|done].
  destruct (largest_rank_Some _ _ _ Hr) as (K & -> & HsK & _).
  simpl. rewrite Nat.sub_0_r.
  destruct (satisfies_lookup _ _ _ HsK) as (c & Hc & Hcle).
  rewrite Hc. intros Hp. apply Qle_bool_iff in Hp.
  assert (HK : (K < length srt)%nat) by by eapply lookup_lt_Some.
  assert (Hal : (0 <= alpha)%Q).
  { destruct Hreg as [|Hall]; [done|].
    destruct (Qlt_le_dec alpha 0) as [Hneg|]; [|done]. exfalso.
    assert (Hc0 : (0 <= c)%Q).
    { rewrite Forall_forall in Hall. apply Hall.
      rewrite <- (sort_ascending_perm pvals).
      by eapply list_elem_of_lookup_2. }
    pose proof (threshold_neg K (length srt) alpha Hneg) as Hth.
    eapply Qle_not_lt; [exact Hc0|].
    eapply Qle_lt_trans; [exact Hcle|exact Hth]. }
  eapply Qle_trans; [exact Hp|]. eapply Qle_trans; [exact Hcle|].
  eapply Qle_trans.
  - apply Qmult_le_compat_r; [|exact Hal].
    apply (rank_fraction_le_1 (S K) (length srt)); lia.
  - rewrite Qmult_1_l. apply Qle_refl.
Qed.

Lemma is_significant_of_bool b : is_significant (of_bool b) = b.
Proof. by destruct b. Qed.

Lemma corrected_count values alpha :
  BH.regular alpha (family values) ->
  (count_significant (corrected values alpha)
   <= count_at_most alpha values)%nat.
Proof.
  intros Hreg. unfold count_significant, count_at_most.
  apply filter_length_le.
  apply Forall2_same_length_lookup_2; [apply corrected_length|].
  intros i c v Hc Hv.
  destruct (isfinite v) eqn:Hfin.
  - destruct v as [p| |]; try done.
    rewrite (corrected_significant _ _ _ _ Hreg Hv) in Hc.
    injection Hc as <-. rewrite is_significant_of_bool. intros Hs.
    simpl. apply Qle_bool_iff. by eapply significant_le_alpha.
  - rewrite (corrected_undefined _ _ _ _ Hv Hfin) in Hc.
    injection Hc as <-. by destruct v.
Qed.

(** ** xarray: dimension bookkeeping *)

Section Assoc.
Context {V : Type}.

Lemma assoc_None (k : string) (l : list (string * V)) :
  k ∉ l.*1 -> xr.assoc k l = None.
Proof.
  induction l as [|[k' v] l IH]; simpl; [done|].
  rewrite not_elem_of_cons. intros [Hne Hnotin].
  rewrite decide_False by done. by apply IH.
Qed.

Lemma assoc_Some (k : string) (v : V) (l : list (string * V)) :
  NoDup l.*1 -> (k, v) ∈ l -> xr.assoc k l = Some v.
Proof.
  induction l as [|[k' v'] l IH]; simpl; intros Hnd Hin.
  - by apply elem_of_nil in Hin.
  - apply NoDup_cons in Hnd as [Hnotin Hnd].
    apply elem_of_cons in Hin as [[= <- <-]|Hin].
    + by rewrite decide_True.
    + rewrite decide_False; [by apply IH|].
      intros ->. apply Hnotin. apply list_elem_of_fmap. by exists (k', v).
Qed.

Lemma assoc_Some_elem (k : string) (v : V) (l : list (string * V)) :
  xr.assoc k l = Some v -> (k, v) ∈ l.
Proof.
  induction l as [|[k' v'] l IH]; simpl; [done|].
  destruct (decide (k = k')) as [->|Hne].
  - intros [= ->]. apply elem_of_cons. by left.
  - intros Hl. apply elem_of_cons. right. by apply IH.
Qed.

End Assoc.

Lemma add_dim_sizes_fresh acc l excl :
  NoDup (acc.*1 ++ l.*1) ->
  xr.add_dim_sizes acc l excl = Ok (acc ++ filter (fun p => p.1 ∉ excl) l).
Proof.
  revert acc. induction l as [|[d n] l IH]; intros acc Hnd; simpl.
  - by rewrite app_nil_r.
  - rewrite filter_cons. simpl.
    assert (Hnd' : NoDup (acc.*1 ++ l.*1)).
    { rewrite fmap_cons in Hnd. simpl in Hnd.
      apply NoDup_app in Hnd as (H1 & H2 & H3). apply NoDup_cons in H3 as [_ H3].
      apply NoDup_app. split; [done|]. split; [|done].
      intros x Hx Hx'. apply (H2 x Hx). apply elem_of_cons. by right. }
    destruct (decide (d ∈ excl)) as [Hin|Hnotin].
    + rewrite bool_decide_eq_true_2 by done.
      rewrite decide_False by (intros Hc; by apply Hc). by apply IH.
    + rewrite bool_decide_eq_false_2 by done.
      rewrite decide_True by done.
      rewrite assoc_None.
      2:{ rewrite fmap_cons in Hnd. simpl in Hnd.
          apply NoDup_app in Hnd as (_ & H2 & _).
          intros Hd. apply (H2 d Hd). apply elem_of_cons. by left. }
      rewrite IH.
      * by rewrite <- app_assoc.
      * rewrite fmap_app, <- app_assoc. simpl.
        by rewrite fmap_cons in Hnd.
Qed.

Lemma add_dim_sizes_known acc l excl :
  Forall (fun p => p.1 ∈ excl \/ xr.assoc p.1 acc = Some p.2) l ->
  xr.add_dim_sizes acc l excl = Ok acc.
Proof.
  induction 1 as [|[d n] l Hd _ IH]; simpl; [done|].
  destruct (decide (d ∈ excl)) as [Hin|Hnotin].
  - by rewrite bool_decide_eq_true_2.
  - rewrite bool_decide_eq_false_2 by done.
    destruct Hd as [|Hd]; [done|]. simpl in Hd. rewrite Hd.
    by rewrite decide_True.
Qed.

Lemma sizes_fst da :
  length (xr.dims da) = length (shape (xr.variable da)) ->
  (xr.sizes da).*1 = xr.dims da.
Proof. intros Hlen. unfold xr.sizes. apply fst_zip. lia. Qed.

Lemma filter_single_ne {A : Type} (f : A -> string) (d : string) (l : list A) :
  filter (fun p => f p ∉ [d]) l = filter (fun p => f p <> d) l.
Proof.
  apply list_filter_iff. intros x.
  rewrite list_elem_of_singleton. done.
Qed.

Lemma index_sizes_NoDup da d :
  xr.wf da -> NoDup (index_sizes da d).*1.
Proof.
  intros (Hnd & Hlen & _). unfold index_sizes.
  eapply sublist_NoDup; [exact Hnd|].
  rewrite <- (sizes_fst da Hlen).
  apply fmap_sublist, sublist_filter.
Qed.

Lemma unified_dim_sizes_valid da1 da2 d :
  valid_pair da1 da2 d ->
  xr.unified_dim_sizes da1 da2 [d] = Ok (index_sizes da1 d).
Proof.
  intros (Hwf1 & Hwf2 & Hd1 & Hd2 & Hsz & Hco).
  pose proof Hwf1 as (Hnd1 & Hlen1 & _).
  pose proof Hwf2 as (Hnd2 & Hlen2 & _).
  unfold xr.unified_dim_sizes.
  rewrite bool_decide_eq_true_2 by done.
  rewrite add_dim_sizes_fresh by (simpl; by rewrite sizes_fst).
  simpl. rewrite filter_single_ne. fold (index_sizes da1 d).
  apply add_dim_sizes_known.
  apply Forall_forall. intros [k n] Hin. simpl.
  destruct (decide (k = d)) as [->|Hne].
  - left. apply list_elem_of_singleton. done.
  - right. apply assoc_Some; [by apply index_sizes_NoDup|].
    rewrite Hsz. unfold index_sizes. apply list_elem_of_filter. done.
Qed.

Lemma align_exact_valid da1 da2 d :
  valid_pair da1 da2 d -> xr.align_exact da1 da2 [d] = Ok ().
Proof.
  intros (Hwf1 & Hwf2 & _ & _ & _ & Hco).
  destruct Hwf2 as (_ & _ & _ & Hnd2 & _).
  unfold xr.align_exact.
  rewrite (proj2 (forallb_forall _ _)); [done|].
  intros [k idx] Hin. apply list_elem_of_In in Hin.
  destruct (decide (k = d)) as [->|Hne].
  - rewrite bool_decide_eq_true_2; [done|]. by apply list_elem_of_singleton.
  - rewrite bool_decide_eq_false_2 by by rewrite list_elem_of_singleton.
    simpl. rewrite (assoc_Some k idx); [by apply bool_decide_eq_true_2|done|].
    assert (Hin' : (k, idx) ∈ index_coords da2 d).
    { rewrite <- Hco. apply list_elem_of_filter. done. }
    by apply list_elem_of_filter in Hin' as [_ ?].
Qed.

Lemma build_output_coords_valid da1 da2 d :
  valid_pair da1 da2 d ->
  xr.build_output_coords da1 da2 [d] = index_coords da1 d.
Proof.
  intros (_ & _ & _ & _ & _ & Hco).
  unfold xr.build_output_coords.
  rewrite filter_app, filter_single_ne. fold (index_coords da1 d).
  rewrite <- (app_nil_r (index_coords da1 d)) at 2. f_equal.
  rewrite list_filter_filter. apply filter_none.
  apply Forall_forall. intros [k idx] Hin [Hne Hnotin]. simpl in *.
  apply Hnotin. apply list_elem_of_fmap. exists (k, idx). split; [done|].
  assert (Hin' : (k, idx) ∈ index_coords da1 d).
  { rewrite Hco. apply list_elem_of_filter. split; [|done]. simpl.
    intros ->. apply Hne. by apply list_elem_of_singleton. }
  by apply list_elem_of_filter in Hin' as [_ ?].
Qed.

(** ** scipy: a test along the last axis *)

Lemma broadcast_aligned_refl s : broadcast_aligned s s = Some s.
Proof.
  induction s as [|a s IH]; simpl; [done|].
  rewrite IH. simpl. by rewrite decide_True.
Qed.

Lemma broadcast_aligned_length s1 s2 t :
  broadcast_aligned s1 s2 = Some t -> length t = length s1.
Proof.
  revert s2 t. induction s1 as [|a s1 IH]; intros [|b s2] t; simpl; try done.
  - by intros [= <-].
  - destruct (broadcast_aligned s1 s2) as [t'|] eqn:E; [|done]. simpl.
    apply IH in E. repeat case_decide; try done; intros [= <-]; simpl; lia.
Qed.

Lemma pad_left_length n s : length (pad_left n s) = (n `max` length s)%nat.
Proof. unfold pad_left. rewrite length_app, length_replicate. lia. Qed.

Lemma broadcast_shapes_refl s : broadcast_shapes s s = Some s.
Proof.
  unfold broadcast_shapes, pad_left.
  rewrite Nat.max_id, Nat.sub_diag. simpl. apply broadcast_aligned_refl.
Qed.

Lemma broadcast_shapes_length s1 s2 t :
  broadcast_shapes s1 s2 = Some t ->
  length t = (length s1 `max` length s2)%nat.
Proof.
  unfold broadcast_shapes. intros Ht.
  apply broadcast_aligned_length in Ht. rewrite pad_left_length in Ht. lia.
Qed.

Lemma broadcast_aligned_comm s1 s2 :
  broadcast_aligned s1 s2 = broadcast_aligned s2 s1.
Proof.
  revert s2. induction s1 as [|a s1 IH]; intros [|b s2]; simpl; try done.
  rewrite (IH s2). destruct (broadcast_aligned s2 s1) as [t|]; simpl; [|done].
  repeat case_decide; congruence.
Qed.

Lemma broadcast_shapes_comm s1 s2 :
  broadcast_shapes s1 s2 = broadcast_shapes s2 s1.
Proof.
  unfold broadcast_shapes. rewrite (Nat.max_comm (length s2)).
  apply broadcast_aligned_comm.
Qed.

(** Two shapes with the same leading axes whose last axes differ, neither
    of length one, do not broadcast. *)
Lemma broadcast_aligned_last_mismatch s n1 n2 :
  n1 <> n2 -> n1 <> 1%nat -> n2 <> 1%nat ->
  broadcast_aligned (s ++ [n1]) (s ++ [n2]) = None.
Proof.
  intros H12 H1 H2. induction s as [|a s IH]; simpl.
  - by rewrite !decide_False.
  - by rewrite IH.
Qed.

Lemma broadcast_shapes_last_mismatch s n1 n2 :
  n1 <> n2 -> n1 <> 1%nat -> n2 <> 1%nat ->
  broadcast_shapes (s ++ [n1]) (s ++ [n2]) = None.
Proof.
  intros H12 H1 H2. unfold broadcast_shapes, pad_left.
  rewrite !length_app. simpl. rewrite Nat.max_id, Nat.sub_diag. simpl.
  by apply broadcast_aligned_last_mismatch.
Qed.

Lemma atleast_1d_length x : (0 < length (shape (stats.atleast_1d x)))%nat.
Proof.
  unfold stats.atleast_1d.
  destruct (shape x) eqn:E; [simpl; lia|rewrite E; simpl; lia].
Qed.

Lemma along_last_axis_shape test paired x y r :
  stats.along_last_axis test paired x y = Ok r ->
  length (data r) = size_of (shape r) /\
  S (length (shape r))
  = (length (shape (stats.atleast_1d x))
     `max` length (shape (stats.atleast_1d y)))%nat.
Proof.
  unfold stats.along_last_axis.
  pose proof (atleast_1d_length x) as Hx.
  pose proof (atleast_1d_length y) as Hy.
  destruct paired.
  - destruct (broadcast_shapes _ _) as [full|] eqn:Hb; [|done].
    intros [= <-]. simpl. split.
    + by rewrite length_fmap, length_seq.
    + apply broadcast_shapes_length in Hb.
      rewrite removelast_firstn_len, length_take. lia.
  - destruct (broadcast_shapes _ _) as [lead|] eqn:Hb; [|done].
    intros [= <-]. simpl. split.
    + by rewrite length_fmap, length_seq.
    + apply broadcast_shapes_length in Hb.
      rewrite !removelast_firstn_len, !length_take in Hb. lia.
Qed.

Lemma atleast_1d_sample s n dd :
  stats.atleast_1d (NDArray (s ++ [n]) dd) = NDArray (s ++ [n]) dd.
Proof. unfold stats.atleast_1d. simpl. by destruct s. Qed.

(** On two arrays with the same leading axes: an unpaired test on any
    last axes, a paired one on last axes of the same length. *)
Lemma along_last_axis_sample test paired s n1 n2 d1 d2 :
  (paired = true -> n1 = n2) ->
  stats.along_last_axis test paired
    (NDArray (s ++ [n1]) d1) (NDArray (s ++ [n2]) d2)
  = let xb := broadcast_to (NDArray (s ++ [n1]) d1) (s ++ [n1]) in
    let yb := broadcast_to (NDArray (s ++ [n2]) d2) (s ++ [n2]) in
    Ok (NDArray s ((fun k => test (stats.row n1 k xb) (stats.row n2 k yb))
                     <$> seq 0 (size_of s))).
Proof.
  intros Hn. unfold stats.along_last_axis.
  rewrite !atleast_1d_sample. simpl. destruct paired.
  - rewrite <- (Hn eq_refl).
    by rewrite broadcast_shapes_refl, last_last, removelast_last.
  - by rewrite !last_last, !removelast_last, broadcast_shapes_refl.
Qed.

(** A paired test on last axes that differ in length, neither of length
    one. *)
Lemma along_last_axis_paired_mismatch test s n1 n2 d1 d2 :
  n1 <> n2 -> n1 <> 1%nat -> n2 <> 1%nat ->
  stats.along_last_axis test true
    (NDArray (s ++ [n1]) d1) (NDArray (s ++ [n2]) d2)
  = Raise (ValueError "Array shapes are incompatible for broadcasting.").
Proof.
  intros H12 H1 H2. unfold stats.along_last_axis.
  rewrite !atleast_1d_sample. simpl.
  by rewrite broadcast_shapes_last_mismatch.
Qed.

(** A test that does not tell its two samples apart gives the same
    result for the two arrays in either order. *)
Lemma along_last_axis_swap test test' paired x y :
  (forall u v, test u v = test' v u) ->
  stats.along_last_axis test paired x y
  = stats.along_last_axis test' paired y x.
Proof.
  intros Hsym. unfold stats.along_last_axis. destruct paired.
  - rewrite (broadcast_shapes_comm (shape (stats.atleast_1d y))).
    destruct (broadcast_shapes _ _) as [full|]; [|done].
    do 2 f_equal. apply list_fmap_ext. intros _ k _. apply Hsym.
  - rewrite (broadcast_shapes_comm (removelast (shape (stats.atleast_1d y)))).
    destruct (broadcast_shapes _ _) as [lead|]; [|done].
    do 2 f_equal. apply list_fmap_ext. intros _ k _. apply Hsym.
Qed.

(** ** [apply_ufunc] on a valid pair *)

Lemma broadcast_compat_data_shape da ds core x :
  xr.broadcast_compat_data da ds core = Ok x ->
  length (shape x) = (length ds + length core)%nat.
Proof.
  unfold xr.broadcast_compat_data. case_bool_decide; [|done].
  intros [= <-]. simpl. by rewrite length_app, !length_fmap.
Qed.

Lemma broadcast_compat_data_sample da ds d :
  d ∈ xr.dims da ->
  exists dat,
    xr.broadcast_compat_data da ds [d]
    = Ok (NDArray (ds.*2 ++ [sample_length da d]) dat).
Proof.
  intros Hd. unfold xr.broadcast_compat_data.
  rewrite bool_decide_eq_true_2 by (by repeat constructor).
  eexists. reflexivity.
Qed.

Lemma apply_ufunc_valid da1 da2 d :
  valid_pair da1 da2 d ->
  exists d1 d2, forall func,
    xr.apply_ufunc func da1 da2 [d] =
    (r ← func (NDArray ((index_sizes da1 d).*2 ++ [sample_length da1 d]) d1)
              (NDArray ((index_sizes da1 d).*2 ++ [sample_length da2 d]) d2);
     if decide (length (shape r) = length (index_sizes da1 d)) then
       if decide (shape r = (index_sizes da1 d).*2) then
         Ok (xr.mkDataArray (index_sizes da1 d).*1 (index_coords da1 d) r)
       else Raise (ValueError
              "size of dimension on inputs was unexpectedly changed by applied function")
     else Raise (ValueError
            "applied function returned data with an unexpected number of dimensions")).
Proof.
  intros Hv. pose proof Hv as (_ & _ & Hd1 & Hd2 & _).
  destruct (broadcast_compat_data_sample da1 (index_sizes da1 d) d Hd1)
    as [d1 Hx].
  destruct (broadcast_compat_data_sample da2 (index_sizes da1 d) d Hd2)
    as [d2 Hy].
  exists d1, d2. intros func. unfold xr.apply_ufunc.
  rewrite align_exact_valid, unified_dim_sizes_valid by done. simpl.
  rewrite Hx, Hy. simpl.
  rewrite build_output_coords_valid by done. done.
Qed.

Section RawPValues.
Context `{Stats}.

Lemma load_global_stats : load_global "stats" = Ok ().
Proof. reflexivity. Qed.

Lemma load_global_scipy : load_global "scipy" = Raise (NameError "scipy").
Proof. reflexivity. Qed.

Lemma cell_test_sample op paired s n1 n2 d1 d2 :
  (paired = true -> op = TTest /\ n1 = n2) ->
  exists dat,
    length dat = size_of s /\
    cell_test op paired (NDArray (s ++ [n1]) d1) (NDArray (s ++ [n2]) d2)
    = Ok (NDArray s dat).
Proof.
  intros Hmode.
  assert (Hn : paired = true -> n1 = n2) by (intros Hp; by apply Hmode).
  destruct paired.
  - destruct Hmode as [-> _]; [done|].
    eexists; split;
      [|simpl; unfold stats.ttest_rel;
        rewrite along_last_axis_sample by done; simpl; reflexivity].
    by rewrite length_fmap, length_seq.
  - destruct op.
    + eexists; split;
        [|simpl; unfold stats.ttest_ind;
          rewrite along_last_axis_sample by done; simpl; reflexivity].
      by rewrite length_fmap, length_seq.
    + eexists; split;
        [|simpl; unfold stats.mannwhitneyu;
          rewrite along_last_axis_sample by done; simpl; reflexivity].
      by rewrite length_fmap, length_seq.
Qed.

Lemma cell_test_paired_mismatch s n1 n2 d1 d2 :
  n1 <> n2 -> n1 <> 1%nat -> n2 <> 1%nat ->
  cell_test TTest true (NDArray (s ++ [n1]) d1) (NDArray (s ++ [n2]) d2)
  = Raise (ValueError "Array shapes are incompatible for broadcasting.").
Proof.
  intros H12 H1 H2. simpl. unfold stats.ttest_rel.
  by rewrite along_last_axis_paired_mismatch.
Qed.

Lemma cell_test_rank_paired x y :
  cell_test RankTest true x y = Raise (NameError "scipy").
Proof. reflexivity. Qed.

(** On a valid pair, in a mode the operation supports, the raw p-values
    are a grid over the index dimensions. *)
Lemma raw_pvalues_valid op da1 da2 paired d :
  valid_pair da1 da2 d ->
  (paired = true ->
   op = TTest /\ sample_length da1 d = sample_length da2 d) ->
  exists dat,
    length dat = size_of (index_sizes da1 d).*2 /\
    raw_pvalues op da1 da2 paired (DimStr d)
    = Ok (xr.mkDataArray (index_sizes da1 d).*1 (index_coords da1 d)
            (NDArray (index_sizes da1 d).*2 dat)).
Proof.
  intros Hv Hmode. destruct (apply_ufunc_valid _ _ _ Hv) as (d1 & d2 & Happ).
  destruct (cell_test_sample op paired (index_sizes da1 d).*2
              (sample_length da1 d) (sample_length da2 d) d1 d2 Hmode)
    as (dat & Hlen & Hcell).
  exists dat. split; [done|].
  unfold raw_pvalues. simpl. rewrite Happ, Hcell. simpl.
  rewrite decide_True by by rewrite length_fmap.
  by rewrite decide_True.
Qed.

(** Whatever the mode, a grid of raw p-values computed from a valid pair
    lies over the index dimensions. *)
Lemma raw_pvalues_valid_inv op da1 da2 paired d raw :
  valid_pair da1 da2 d ->
  raw_pvalues op da1 da2 paired (DimStr d) = Ok raw ->
  xr.dims raw = (index_sizes da1 d).*1 /\
  shape (xr.variable raw) = (index_sizes da1 d).*2 /\
  xr.coords raw = index_coords da1 d.
Proof.
  intros Hv. destruct (apply_ufunc_valid _ _ _ Hv) as (d1 & d2 & Happ).
  unfold raw_pvalues. simpl. rewrite Happ.
  destruct (cell_test op paired _ _) as [r|e]; [|done]. simpl.
  case_decide; [|done]. case_decide; [|done]. intros [= <-]. done.
Qed.

End RawPValues.

(** ** The two operations: raw p-values, then the correction *)

Section Operations.
Context `{Stats}.

Lemma run_unfold op da1 da2 paired dim alpha :
  run op da1 da2 paired dim alpha =
  (raw ← raw_pvalues op da1 da2 paired dim;
   values ← np.setitem_mask (ravel (variable raw))
              (isfinite <$> ravel (variable raw))
              (of_bool <$> (multitest.multipletests
                              (family (ravel (variable raw))) alpha).1);
   new ← reshape values (shape (variable raw));
   xr.set_values raw new).
Proof. destruct op; reflexivity. Qed.

(** The per-cell function returns as many values as its shape says. *)
Lemma cell_test_length op paired x y r :
  cell_test op paired x y = Ok r -> length (data r) = size_of (shape r).
Proof.
  destruct op, paired; simpl; try done;
    unfold stats.ttest_rel, stats.ttest_ind, stats.mannwhitneyu; intros Hr;
    by apply along_last_axis_shape in Hr as [? _].
Qed.

Lemma raw_pvalues_length op da1 da2 paired dim raw :
  raw_pvalues op da1 da2 paired dim = Ok raw ->
  length (data (variable raw)) = size_of (shape (variable raw)).
Proof.
  unfold raw_pvalues, xr.apply_ufunc.
  destruct (xr.align_exact _ _ _) as [[]|e]; simpl; [|done].
  destruct (xr.unified_dim_sizes _ _ _) as [ds|e]; simpl; [|done].
  destruct (xr.broadcast_compat_data da1 _ _) as [x|e]; simpl; [|done].
  destruct (xr.broadcast_compat_data da2 _ _) as [y|e]; simpl; [|done].
  destruct (cell_test op paired x y) as [r|e] eqn:Hr; simpl; [|done].
  case_decide; [|done]. case_decide; [|done]. intros [= <-]. simpl.
  by eapply cell_test_length.
Qed.

(** A call returns the grid of raw p-values with the corrected values in
    it, and raises what the computation of the raw p-values raises: the
    correction itself never fails. *)
Lemma run_eq op da1 da2 paired dim alpha :
  run op da1 da2 paired dim alpha
  = (fun raw => xr.with_data raw (corrected (data (variable raw)) alpha))
      <$> raw_pvalues op da1 da2 paired dim.
Proof.
  rewrite run_unfold.
  destruct (raw_pvalues op da1 da2 paired dim) as [raw|e] eqn:Hraw; [|done].
  apply raw_pvalues_length in Hraw.
  cbn [mbind result_bind fmap result_fmap]. unfold ravel.
  rewrite multipletests_eq. cbn [fst].
  rewrite setitem_mask_Ok by by rewrite length_fmap, reject_of_length.
  simpl. unfold reshape.
  rewrite decide_True by by rewrite putmask_length.
  simpl. unfold xr.set_values. simpl. by rewrite decide_True.
Qed.

Lemma run_Ok op da1 da2 paired dim alpha raw :
  raw_pvalues op da1 da2 paired dim = Ok raw ->
  run op da1 da2 paired dim alpha
  = Ok (xr.with_data raw (corrected (data (variable raw)) alpha)).
Proof. intros Hraw. by rewrite run_eq, Hraw. Qed.

Lemma run_Ok_inv op da1 da2 paired dim alpha g :
  run op da1 da2 paired dim alpha = Ok g ->
  exists raw,
    raw_pvalues op da1 da2 paired dim = Ok raw /\
    length (data (variable raw)) = size_of (shape (variable raw)) /\
    g = xr.with_data raw (corrected (data (variable raw)) alpha).
Proof.
  rewrite run_eq.
  destruct (raw_pvalues op da1 da2 paired dim) as [raw|e] eqn:Hraw; [|done].
  intros [= <-]. exists raw. split; [done|]. split; [|done].
  by eapply raw_pvalues_length.
Qed.

End Operations.

(** * The claims *)

(** ** The example grids *)

Ltac by_computation := apply (bool_decide_unpack _); by vm_compute.

Lemma exA_wf : xr.wf exA.
Proof.
  unfold xr.wf. simpl.
  repeat split; [by_computation|by_computation|repeat constructor].
Defined.

Lemma exB_wf : xr.wf exB.
Proof.
  unfold xr.wf. simpl.
  repeat split; [by_computation|by_computation|repeat constructor].
Defined.

Lemma exC_wf : xr.wf exC.
Proof.
  unfold xr.wf. simpl.
  repeat split; [by_computation|by_computation|repeat constructor].
Defined.

Lemma exA_exB_valid : valid_pair exA exB "time".
Proof.
  unfold valid_pair.
  repeat split; try apply exA_wf; try apply exB_wf; by_computation.
Defined.

Lemma exA_exC_valid : valid_pair exA exC "time".
Proof.
  unfold valid_pair.
  repeat split; try apply exA_wf; try apply exC_wf; by_computation.
Defined.

(** ** A grid is returned *)

(** On a valid pair, in a mode the operation computes (the paired rank
    test is not one, and the paired t-test is taken on samples of the same
    length), a call returns a grid. *)
Lemma run_valid `{Stats} op da1 da2 paired d alpha :
  valid_pair da1 da2 d ->
  (paired = true ->
   op = TTest /\ sample_length da1 d = sample_length da2 d) ->
  exists raw g,
    raw_pvalues op da1 da2 paired (DimStr d) = Ok raw /\
    run op da1 da2 paired (DimStr d) alpha = Ok g.
Proof.
  intros Hv Hmode.
  destruct (raw_pvalues_valid op da1 da2 paired d Hv Hmode)
    as (dat & _ & Hraw).
  eexists _, _. split; [exact Hraw|]. by apply run_Ok.
Qed.

(** ** The correction step *)

(** The cells selected by the mask, read back after the write. *)
Lemma compress_putmask (values new : list fval) :
  length new = length (family values) ->
  np.compress (isfinite <$> values)
    (np.putmask values (isfinite <$> values) new) = new.
Proof.
  rewrite family_eq. revert new.
  induction values as [|v values IH]; intros new Hlen.
  - by destruct new.
  - rewrite as_rationals_cons in Hlen. rewrite fmap_cons.
    destruct v as [q| |neg]; simpl.
    + destruct new as [|y new]; [done|]. simpl. f_equal. apply IH.
      by injection Hlen.
    + by apply IH.
    + by apply IH.
Qed.

Lemma compress_corrected values alpha :
  np.compress (isfinite <$> values) (corrected values alpha)
  = of_bool <$> (multitest.multipletests (family values) alpha).1.
Proof.
  rewrite multipletests_eq. simpl. unfold corrected.
  apply compress_putmask. by rewrite length_fmap, reject_of_length.
Qed.

(** The marking of the worded procedure, with the ranks and the family
    size written out. *)
Lemma significant_iff pvals alpha p :
  BH.significant pvals alpha p = true <->
  exists k c,
    BH.sort_ascending pvals !! k = Some c /\
    (c <= (Z.of_nat (S k) # Pos.of_nat (length pvals)) * alpha)%Q /\
    (p <= c)%Q.
Proof.
  unfold BH.significant, BH.cutoff.
  pose proof (sort_ascending_length pvals) as Hlen.
  pose proof (sort_ascending_sorted pvals) as Hsrt.
  set (srt := BH.sort_ascending pvals) in *.
  destruct (BH.largest_rank srt alpha) as [r|] eqn:Hr.
  - destruct (largest_rank_Some _ _ _ Hr) as (K & -> & HsK & Hmax).
    cbn [mbind option_bind]. replace (S K - 1)%nat with K by lia.
    destruct (satisfies_lookup _ _ _ HsK) as (c & Hc & Hcle). rewrite Hc.
    rewrite Qle_bool_iff. split.
    + intros Hp. exists K, c. by rewrite <- Hlen.
    + intros (k & c' & Hk & Hc' & Hp).
      assert (Hs : BH.satisfies srt alpha (S k) = true).
      { unfold BH.satisfies. replace (S k - 1)%nat with k by lia.
        rewrite Hk. apply Qle_bool_iff. by rewrite Hlen. }
      apply Hmax in Hs. eapply Qle_trans; [exact Hp|].
      by eapply sorted_lookup_le.
  - cbn [mbind option_bind]. split; [done|].
    intros (k & c' & Hk & Hc' & _). exfalso.
    pose proof (largest_rank_None _ _ k Hr) as Hn.
    unfold BH.satisfies in Hn. replace (S k - 1)%nat with k in Hn by lia.
    rewrite Hk, Hlen in Hn. apply Qle_bool_false in Hn.
    by eapply Qlt_not_le.
Qed.

(** C1. On a valid pair of grids, in a mode the operation computes, both
    operations return a grid; and in each cell whose raw p-value is
    defined, the returned grid holds the Benjamini-Hochberg rejection
    decision: the entry of the [reject] vector returned by [multipletests]
    at that cell's position in the family, cast to a float (1.0 for
    reject, 0.0 otherwise), and not the entry of the corrected
    p-values. *)
Theorem C1_decision_written_back `{Stats} (op : operation)
    (da1 da2 : xr.DataArray) (paired : bool) (d : string) (alpha : Q) :
  valid_pair da1 da2 d ->
  ((paired = true ->
    op = TTest /\ sample_length da1 d = sample_length da2 d) ->
   exists raw g,
     raw_pvalues op da1 da2 paired (DimStr d) = Ok raw /\
     run op da1 da2 paired (DimStr d) alpha = Ok g) /\
  (forall raw g,
     raw_pvalues op da1 da2 paired (DimStr d) = Ok raw ->
     run op da1 da2 paired (DimStr d) alpha = Ok g ->
     forall i p,
       data (xr.variable raw) !! i = Some (FNum p) ->
       exists b,
         (multitest.multipletests
            (family (ravel (xr.variable raw))) alpha).1
           !! family_index (data (xr.variable raw)) i = Some b /\
         data (xr.variable g) !! i = Some (of_bool b)).
Proof.
  intros Hv. split; [by apply run_valid|].
  intros raw g Hraw Hrun i p Hi.
  rewrite (run_Ok _ _ _ _ _ alpha _ Hraw) in Hrun. injection Hrun as <-.
  rewrite multipletests_eq. simpl. by apply (corrected_defined _ _ _ p).
Qed.

Lemma C1_decision_written_back_witness :
  (exists raw g,
     @raw_pvalues toy_stats TTest exA exB false (DimStr "time") = Ok raw /\
     @run toy_stats TTest exA exB false (DimStr "time") (5 # 100) = Ok g) /\
  (exists raw g,
     @raw_pvalues toy_stats RankTest exA exB false (DimStr "time") = Ok raw /\
     @run toy_stats RankTest exA exB false (DimStr "time") (5 # 100) = Ok g) /\
  (forall i p,
     data (xr.variable ex_raw) !! i = Some (FNum p) ->
     exists b,
       (multitest.multipletests
          (family (ravel (xr.variable ex_raw))) (5 # 100)).1
         !! family_index (data (xr.variable ex_raw)) i = Some b /\
       data (xr.variable ex_out) !! i = Some (of_bool b)).
Proof.
  split; [|split].
  - apply (@C1_decision_written_back toy_stats TTest exA exB false "time"
             (5 # 100)%Q exA_exB_valid). discriminate.
  - apply (@C1_decision_written_back toy_stats RankTest exA exB false "time"
             (5 # 100)%Q exA_exB_valid). discriminate.
  - apply (@C1_decision_written_back toy_stats RankTest exA exB false "time"
             (5 # 100)%Q exA_exB_valid); vm_compute; reflexivity.
Defined.

(** The decision and the corrected p-value differ: in the first cell of
    the example the corrected p-value is 2/1601, and the grid holds 1.0. *)
Example decision_is_not_corrected_pvalue :
  @run toy_stats TTest exA exB false (DimStr "time") (5 # 100)%Q = Ok ex_out /\
  data (xr.variable ex_out) !! 0%nat = Some (FNum 1) /\
  (multitest.multipletests
     (family (ravel (xr.variable ex_raw))) (5 # 100)%Q).2
  = [2 # 1601; 2 # 2]%Q.
Proof. vm_compute. auto. Qed.

(** C3. On a valid pair of grids, in a mode the operation computes, both
    operations return a grid; and the correction that gives it is the
    Benjamini-Hochberg step-up procedure on one family, the finite
    p-values of the whole grid: with m their number, the sorted p-values
    are compared rank by rank against i/m * alpha, and a cell is marked
    exactly when its p-value is at or below the p-value of the largest
    rank that satisfies the inequality. (The procedure: for a level that
    is not negative, or p-values that are not.) *)
Theorem C3_step_up_single_family `{Stats} (op : operation)
    (da1 da2 : xr.DataArray) (paired : bool) (d : string) (alpha : Q) :
  valid_pair da1 da2 d ->
  ((paired = true ->
    op = TTest /\ sample_length da1 d = sample_length da2 d) ->
   exists raw g,
     raw_pvalues op da1 da2 paired (DimStr d) = Ok raw /\
     run op da1 da2 paired (DimStr d) alpha = Ok g) /\
  (forall raw g,
     raw_pvalues op da1 da2 paired (DimStr d) = Ok raw ->
     run op da1 da2 paired (DimStr d) alpha = Ok g ->
     BH.regular alpha (family (data (xr.variable raw))) ->
     length (family (data (xr.variable raw)))
     = length (filter (fun v => isfinite v = true)
                      (data (xr.variable raw))) /\
     forall i p,
       data (xr.variable raw) !! i = Some (FNum p) ->
       data (xr.variable g) !! i
       = Some (of_bool
                 (BH.significant (family (data (xr.variable raw))) alpha p))).
Proof.
  intros Hv. split; [by apply run_valid|].
  intros raw g Hraw Hrun Hreg.
  rewrite (run_Ok _ _ _ _ _ alpha _ Hraw) in Hrun. injection Hrun as <-.
  split; [apply family_finite_count|].
  intros i p Hi. simpl. by apply corrected_significant.
Qed.

Lemma C3_step_up_single_family_witness :
  (exists raw g,
     @raw_pvalues toy_stats TTest exA exB false (DimStr "time") = Ok raw /\
     @run toy_stats TTest exA exB false (DimStr "time") (5 # 100) = Ok g) /\
  (exists raw g,
     @raw_pvalues toy_stats RankTest exA exB false (DimStr "time") = Ok raw /\
     @run toy_stats RankTest exA exB false (DimStr "time") (5 # 100) = Ok g) /\
  length (family (data (xr.variable ex_raw)))
  = length (filter (fun v => isfinite v = true) (data (xr.variable ex_raw))) /\
  forall i p,
    data (xr.variable ex_raw) !! i = Some (FNum p) ->
    data (xr.variable ex_out) !! i
    = Some (of_bool
              (BH.significant (family (data (xr.variable ex_raw)))
                 (5 # 100) p)).
Proof.
  split; [|split].
  - apply (@C3_step_up_single_family toy_stats TTest exA exB false "time"
             (5 # 100)%Q exA_exB_valid). discriminate.
  - apply (@C3_step_up_single_family toy_stats RankTest exA exB false "time"
             (5 # 100)%Q exA_exB_valid). discriminate.
  - apply (@C3_step_up_single_family toy_stats TTest exA exB false "time"
             (5 # 100)%Q exA_exB_valid).
    + vm_compute; reflexivity.
    + vm_compute; reflexivity.
    + left. unfold Qle. simpl. lia.
Defined.

(** C4. On a valid pair of grids, in a mode the operation computes, both
    operations return a grid, and in it the undefined cells are left out
    of the correction: the defined cells of the returned grid are, in
    order, the decisions [multipletests] takes on the finite raw p-values
    alone; the count m against which the ranks are compared is the number
    of finite cells; and a cell whose raw p-value is not finite keeps its
    value and is not marked significant. *)
Theorem C4_undefined_cells `{Stats} (op : operation)
    (da1 da2 : xr.DataArray) (paired : bool) (d : string) (alpha : Q) :
  valid_pair da1 da2 d ->
  ((paired = true ->
    op = TTest /\ sample_length da1 d = sample_length da2 d) ->
   exists raw g,
     raw_pvalues op da1 da2 paired (DimStr d) = Ok raw /\
     run op da1 da2 paired (DimStr d) alpha = Ok g) /\
  (forall raw g,
     raw_pvalues op da1 da2 paired (DimStr d) = Ok raw ->
     run op da1 da2 paired (DimStr d) alpha = Ok g ->
     np.compress (isfinite <$> data (xr.variable raw))
                 (data (xr.variable g))
     = of_bool <$> (multitest.multipletests
                      (family (data (xr.variable raw))) alpha).1 /\
     (BH.regular alpha (family (data (xr.variable raw))) ->
      forall i p,
        data (xr.variable raw) !! i = Some (FNum p) ->
        data (xr.variable g) !! i = Some (FNum 1) <->
        exists k c,
          BH.sort_ascending (family (data (xr.variable raw))) !! k = Some c /\
          (c <= (Z.of_nat (S k)
                 # Pos.of_nat
                     (length (filter (fun v => isfinite v = true)
                                     (data (xr.variable raw))))) * alpha)%Q /\
          (p <= c)%Q) /\
     (forall i v,
        data (xr.variable raw) !! i = Some v -> isfinite v = false ->
        data (xr.variable g) !! i = Some v /\ is_significant v = false)).
Proof.
  intros Hv. split; [by apply run_valid|].
  intros raw g Hraw Hrun.
  rewrite (run_Ok _ _ _ _ _ alpha _ Hraw) in Hrun. injection Hrun as <-.
  simpl. split; [apply compress_corrected|]. split.
  - intros Hreg i p Hi.
    rewrite (corrected_significant _ _ _ _ Hreg Hi).
    rewrite <- family_finite_count, <- significant_iff.
    destruct (BH.significant _ _ _); unfold of_bool; split;
      (done || by intros [=]).
  - intros i v Hi Hfin. split; [by apply corrected_undefined|].
    by destruct v.
Qed.

Lemma C4_undefined_cells_witness :
  (exists raw g,
     @raw_pvalues toy_stats TTest exA exB false (DimStr "time") = Ok raw /\
     @run toy_stats TTest exA exB false (DimStr "time") (5 # 100) = Ok g) /\
  (exists raw g,
     @raw_pvalues toy_stats RankTest exA exB false (DimStr "time") = Ok raw /\
     @run toy_stats RankTest exA exB false (DimStr "time") (5 # 100) = Ok g) /\
  np.compress (isfinite <$> data (xr.variable ex_raw))
              (data (xr.variable ex_out))
  = of_bool <$> (multitest.multipletests
                   (family (data (xr.variable ex_raw))) (5 # 100)).1 /\
  (BH.regular (5 # 100) (family (data (xr.variable ex_raw))) ->
   forall i p,
     data (xr.variable ex_raw) !! i = Some (FNum p) ->
     data (xr.variable ex_out) !! i = Some (FNum 1) <->
     exists k c,
       BH.sort_ascending (family (data (xr.variable ex_raw))) !! k = Some c /\
       (c <= (Z.of_nat (S k)
              # Pos.of_nat
                  (length (filter (fun v => isfinite v = true)
                                  (data (xr.variable ex_raw))))) * (5 # 100))%Q /\
       (p <= c)%Q) /\
  (forall i v,
     data (xr.variable ex_raw) !! i = Some v -> isfinite v = false ->
     data (xr.variable ex_out) !! i = Some v /\ is_significant v = false).
Proof.
  split; [|split].
  - apply (@C4_undefined_cells toy_stats TTest exA exB false "time"
             (5 # 100)%Q exA_exB_valid). discriminate.
  - apply (@C4_undefined_cells toy_stats RankTest exA exB false "time"
             (5 # 100)%Q exA_exB_valid). discriminate.
  - apply (@C4_undefined_cells toy_stats TTest exA exB false "time"
             (5 # 100)%Q exA_exB_valid); vm_compute; reflexivity.
Defined.

(** C6. After the correction, the cells marked significant are at most
    as many as the cells whose raw p-value is at or below the level. (For
    a level that is not negative, or p-values that are not.) *)
Theorem C6_correction_monotone `{Stats} (op : operation)
    (da1 da2 : xr.DataArray) (paired : bool) (dim : dim_arg) (alpha : Q)
    (raw g : xr.DataArray) :
  raw_pvalues op da1 da2 paired dim = Ok raw ->
  run op da1 da2 paired dim alpha = Ok g ->
  BH.regular alpha (family (data (xr.variable raw))) ->
  (count_significant (data (xr.variable g))
   <= count_at_most alpha (data (xr.variable raw)))%nat.
Proof.
  intros Hraw Hrun Hreg.
  rewrite (run_Ok _ _ _ _ _ alpha _ Hraw) in Hrun. injection Hrun as <-.
  simpl. by apply corrected_count.
Qed.

Lemma C6_correction_monotone_witness :
  (count_significant (data (xr.variable ex_out))
   <= count_at_most (5 # 100) (data (xr.variable ex_raw)))%nat.
Proof.
  apply (@C6_correction_monotone toy_stats TTest exA exB false
           (DimStr "time") (5 # 100)%Q ex_raw ex_out).
  - vm_compute; reflexivity.
  - vm_compute; reflexivity.
  - left. unfold Qle. simpl. lia.
Defined.

(** ** Shape, modes and the [dim] argument *)

Lemma sizes_index_sizes da d :
  zip (index_sizes da d).*1 (index_sizes da d).*2 = index_sizes da d.
Proof. apply zip_fst_snd. Qed.

Lemma index_sizes_not_sample da d : d ∉ (index_sizes da d).*1.
Proof.
  intros Hin. apply list_elem_of_fmap in Hin as ([k n] & -> & Hin).
  apply list_elem_of_filter in Hin as [Hne _]. done.
Qed.

Lemma assoc_filter_ne {V : Type} (k d : string) (l : list (string * V)) :
  k <> d -> xr.assoc k (filter (fun p => p.1 <> d) l) = xr.assoc k l.
Proof.
  intros Hk. induction l as [|[k' v] l IH]; [done|].
  rewrite filter_cons. simpl. destruct (decide (k' <> d)) as [Hne|He].
  - simpl. by rewrite IH.
  - destruct (decide (k = k')) as [->|]; [|done].
    exfalso. apply He. done.
Qed.

(** A grid over the index dimensions of a well-formed grid, with its
    index coordinates, is well formed. *)
Lemma index_grid_wf da d values :
  xr.wf da ->
  length values = size_of (index_sizes da d).*2 ->
  xr.wf (xr.mkDataArray (index_sizes da d).*1 (index_coords da d)
           (NDArray (index_sizes da d).*2 values)).
Proof.
  intros Hwf Hlen. pose proof Hwf as (Hnd & Hl & _ & Hcnd & Hco).
  unfold xr.wf. simpl. split; [by apply index_sizes_NoDup|].
  split; [by rewrite !length_fmap|]. split; [done|]. split.
  - eapply sublist_NoDup; [exact Hcnd|].
    apply fmap_sublist, sublist_filter.
  - unfold xr.sizes. simpl. rewrite sizes_index_sizes.
    apply Forall_forall. intros [k idx] Hin.
    apply list_elem_of_filter in Hin as [Hk Hin]. simpl in Hk.
    rewrite Forall_forall in Hco. specialize (Hco _ Hin). simpl in Hco.
    unfold index_sizes. by rewrite assoc_filter_ne.
Qed.

(** C5. On a valid pair of grids, in a mode the operation computes, both
    operations return a grid; and the grid an operation returns is a
    well-formed grid over the index dimensions of the inputs, in their
    order and with their extents, with one cell per combination of index
    positions, without the sample dimension, and it carries the index
    coordinates of the inputs. *)
Theorem C5_output_shape `{Stats} (op : operation) (da1 da2 : xr.DataArray)
    (paired : bool) (d : string) (alpha : Q) :
  valid_pair da1 da2 d ->
  ((paired = true ->
    op = TTest /\ sample_length da1 d = sample_length da2 d) ->
   exists g, run op da1 da2 paired (DimStr d) alpha = Ok g) /\
  (forall g,
     run op da1 da2 paired (DimStr d) alpha = Ok g ->
     xr.wf g /\
     (d ∉ xr.dims g) /\
     xr.dims g = (index_sizes da1 d).*1 /\
     xr.dims g = (index_sizes da2 d).*1 /\
     shape (xr.variable g) = (index_sizes da1 d).*2 /\
     shape (xr.variable g) = (index_sizes da2 d).*2 /\
     length (data (xr.variable g)) = size_of (index_sizes da1 d).*2 /\
     xr.coords g = index_coords da1 d /\
     xr.coords g = index_coords da2 d).
Proof.
  intros Hv. pose proof Hv as (Hwf1 & _ & _ & _ & Hsz & Hco). split.
  - intros Hmode.
    destruct (run_valid op da1 da2 paired d alpha Hv Hmode)
      as (raw & g & _ & Hrun).
    by exists g.
  - intros g Hrun.
    destruct (run_Ok_inv _ _ _ _ _ _ _ Hrun) as (raw & Hraw & Hlen & ->).
    destruct (raw_pvalues_valid_inv _ _ _ _ _ _ Hv Hraw) as (Hd & Hs & Hc).
    assert (Hlen' : length (corrected (data (xr.variable raw)) alpha)
                    = size_of (index_sizes da1 d).*2)
      by by rewrite corrected_length, Hlen, Hs.
    unfold xr.with_data. rewrite Hd, Hs, Hc. simpl.
    split; [by apply index_grid_wf|].
    split; [apply index_sizes_not_sample|].
    by rewrite <- Hsz, <- Hco.
Qed.

Lemma C5_output_shape_witness :
  (exists g,
     @run toy_stats TTest exA exB false (DimStr "time") (5 # 100) = Ok g) /\
  (exists g,
     @run toy_stats RankTest exA exB false (DimStr "time") (5 # 100) = Ok g) /\
  xr.wf ex_out /\
  ("time" ∉ xr.dims ex_out) /\
  xr.dims ex_out = (index_sizes exA "time").*1 /\
  xr.dims ex_out = (index_sizes exB "time").*1 /\
  shape (xr.variable ex_out) = (index_sizes exA "time").*2 /\
  shape (xr.variable ex_out) = (index_sizes exB "time").*2 /\
  length (data (xr.variable ex_out)) = size_of (index_sizes exA "time").*2 /\
  xr.coords ex_out = index_coords exA "time" /\
  xr.coords ex_out = index_coords exB "time".
Proof.
  split; [|split].
  - apply (@C5_output_shape toy_stats TTest exA exB false "time" (5 # 100)%Q
             exA_exB_valid). discriminate.
  - apply (@C5_output_shape toy_stats RankTest exA exB false "time"
             (5 # 100)%Q exA_exB_valid). discriminate.
  - apply (@C5_output_shape toy_stats RankTest exA exB false "time"
             (5 # 100)%Q exA_exB_valid). vm_compute; reflexivity.
Defined.

(** Every paired call of the rank operation on a valid pair stops at
    the unbound name. *)
Lemma paired_rank_raises `{Stats} da1 da2 d alpha :
  valid_pair da1 da2 d ->
  mannwhitney da1 da2 true (DimStr d) alpha = Raise (NameError "scipy").
Proof.
  intros Hv. destruct (apply_ufunc_valid _ _ _ Hv) as (d1 & d2 & Happ).
  change (run RankTest da1 da2 true (DimStr d) alpha
          = Raise (NameError "scipy")).
  rewrite run_unfold. unfold raw_pvalues. simpl dim_list. rewrite Happ.
  by rewrite cell_test_rank_paired.
Qed.

Lemma paired_ttest_mismatch_raises `{Stats} da1 da2 d alpha :
  valid_pair da1 da2 d ->
  sample_length da1 d <> sample_length da2 d ->
  sample_length da1 d <> 1%nat -> sample_length da2 d <> 1%nat ->
  ttest_2samp da1 da2 true (DimStr d) alpha
  = Raise (ValueError "Array shapes are incompatible for broadcasting.").
Proof.
  intros Hv Hne H1 H2.
  destruct (apply_ufunc_valid _ _ _ Hv) as (d1 & d2 & Happ).
  change (run TTest da1 da2 true (DimStr d) alpha
          = Raise (ValueError
                     "Array shapes are incompatible for broadcasting.")).
  rewrite run_unfold. unfold raw_pvalues. simpl dim_list. rewrite Happ.
  by rewrite cell_test_paired_mismatch.
Qed.

(** C7. In paired mode on a valid pair whose sample dimensions differ in
    length, [ttest_2samp] fails with a [ValueError], raised by the test
    when its two samples do not broadcast (a sample dimension of length
    one does), before any cell is computed, and returns no grid;
    [mannwhitney] fails too, but with the [NameError] that every paired
    call of it raises, whatever the lengths. *)
Theorem C7_paired_length_mismatch `{Stats} (da1 da2 : xr.DataArray)
    (d : string) (alpha : Q) :
  valid_pair da1 da2 d ->
  sample_length da1 d <> sample_length da2 d ->
  (sample_length da1 d <> 1%nat -> sample_length da2 d <> 1%nat ->
   exists msg,
     ttest_2samp da1 da2 true (DimStr d) alpha = Raise (ValueError msg)) /\
  mannwhitney da1 da2 true (DimStr d) alpha = Raise (NameError "scipy").
Proof.
  intros Hv Hne. split.
  - intros H1 H2. eexists. by apply paired_ttest_mismatch_raises.
  - by apply paired_rank_raises.
Qed.

Lemma C7_paired_length_mismatch_witness :
  (exists msg,
     @ttest_2samp toy_stats exA exB true (DimStr "time") (5 # 100)
     = Raise (ValueError msg)) /\
  @mannwhitney toy_stats exA exB true (DimStr "time") (5 # 100)
  = Raise (NameError "scipy").
Proof.
  destruct (@C7_paired_length_mismatch toy_stats exA exB "time" (5 # 100)%Q)
    as [Ht Hm].
  - exact exA_exB_valid.
  - vm_compute. discriminate.
  - split; [|exact Hm]. apply Ht; vm_compute; discriminate.
Defined.

(** C2. Without pairing, the rank operation computes each cell with the
    Mann-Whitney U test. With pairing it does not reach the Wilcoxon
    test: the per-cell function reads the name [scipy], which the module
    does not bind, and the call raises [NameError], even on a pair of
    equal sample lengths. *)
Theorem C2_rank_test_selection `{Stats} :
  (forall x y, _mannwhitneyu false x y = stats.mannwhitneyu x y) /\
  (forall x y, _mannwhitneyu true x y = Raise (NameError "scipy")) /\
  (forall alpha,
     mannwhitney exA exC true (DimStr "time") alpha
     = Raise (NameError "scipy")).
Proof.
  split; [|split]; [done|done|].
  intros alpha. apply paired_rank_raises. exact exA_exC_valid.
Qed.

Lemma atleast_1d_ndim x :
  (0 < length (shape x))%nat ->
  length (shape (stats.atleast_1d x)) = length (shape x).
Proof.
  unfold stats.atleast_1d. destruct (shape x) eqn:E; simpl; [lia|].
  by rewrite E.
Qed.

Section DimList.
Context `{Stats}.

(** The per-cell function reduces the last axis only: its result has one
    axis less than its arguments. *)
Lemma cell_test_ndim op paired x y r :
  cell_test op paired x y = Ok r ->
  S (length (shape r))
  = (length (shape (stats.atleast_1d x))
     `max` length (shape (stats.atleast_1d y)))%nat.
Proof.
  destruct op, paired; simpl; try done;
    unfold stats.ttest_rel, stats.ttest_ind, stats.mannwhitneyu; intros Hr;
    by apply along_last_axis_shape in Hr as [_ ?].
Qed.

Lemma raw_pvalues_several op da1 da2 paired l :
  (2 <= length l)%nat ->
  exists e, raw_pvalues op da1 da2 paired (DimList l) = Raise e.
Proof.
  intros Hl. unfold raw_pvalues, xr.apply_ufunc. simpl dim_list.
  destruct (xr.align_exact da1 da2 l) as [[]|e]; simpl; [|by eauto].
  destruct (xr.unified_dim_sizes da1 da2 l) as [ds|e]; simpl; [|by eauto].
  destruct (xr.broadcast_compat_data da1 ds l) as [x|e] eqn:Hx; simpl;
    [|by eauto].
  destruct (xr.broadcast_compat_data da2 ds l) as [y|e] eqn:Hy; simpl;
    [|by eauto].
  destruct (cell_test op paired x y) as [r|e] eqn:Hr; simpl; [|by eauto].
  apply broadcast_compat_data_shape in Hx, Hy.
  apply cell_test_ndim in Hr.
  rewrite !atleast_1d_ndim in Hr by lia.
  rewrite decide_False by lia. eauto.
Qed.

End DimList.

(** C10 (as amended). [dim] may also be a list of names. A list of one
    name is handled as that name passed as a string, which the code wraps
    into such a list. The per-cell test reduces the last axis only, so for
    a list of two or more names the result keeps the other listed
    dimensions, [apply_ufunc] refuses it, and the call raises instead of
    returning a grid. *)
Theorem C10_dim_list `{Stats} (op : operation) (da1 da2 : xr.DataArray)
    (paired : bool) (alpha : Q) (l : list string) :
  match l with
  | [] => True
  | [d] =>
      run op da1 da2 paired (DimList l) alpha
      = run op da1 da2 paired (DimStr d) alpha
  | _ :: _ :: _ =>
      exists e, run op da1 da2 paired (DimList l) alpha = Raise e
  end.
Proof.
  destruct l as [|d [|d' l]]; [done| |].
  - destruct op; reflexivity.
  - destruct (raw_pvalues_several op da1 da2 paired (d :: d' :: l))
      as [e He]; [simpl; lia|].
    exists e. by rewrite run_unfold, He.
Qed.

(** The claim as stated fails: with the two names of [exA] listed, no
    grid without them comes back, the call raises. *)
Lemma C10_counterexample :
  @run toy_stats RankTest exA exB false (DimList ["x"; "time"]) (5 # 100)
  = Raise (ValueError
      "applied function returned data with an unexpected number of dimensions")
  /\ ~ (exists g,
          @run toy_stats RankTest exA exB false (DimList ["x"; "time"])
               (5 # 100) = Ok g /\ xr.dims g = []).
Proof.
  assert (Hrun :
    @run toy_stats RankTest exA exB false (DimList ["x"; "time"]) (5 # 100)
    = Raise (ValueError
        "applied function returned data with an unexpected number of dimensions")).
  { vm_compute. reflexivity. }
  split; [exact Hrun|]. intros (g & Hg & _). rewrite Hrun in Hg. discriminate.
Qed.

(** ** Calls on the store *)

Section Store.
Context `{Stats}.

(** Both calls, step by step: the arguments are read, the raw p-values
    are stored as a new object, and the two writes go to that object. *)
Lemma call_unfold op da1 da2 paired dim alpha (h : store) :
  call op da1 da2 paired dim alpha h =
  match h !! da1 with
  | None => (h, Raise (NameError "unbound reference"))
  | Some a =>
    match h !! da2 with
    | None => (h, Raise (NameError "unbound reference"))
    | Some b =>
      match raw_pvalues op a b paired dim with
      | Raise e => (h, Raise e)
      | Ok raw =>
        let r := fresh (dom h) in
        let values := data (xr.variable raw) in
        let shp := shape (xr.variable raw) in
        match np.setitem_mask values (isfinite <$> values)
                (of_bool <$> (multitest.multipletests
                                (family values) alpha).1) with
        | Raise e => (<[r := raw]> h, Raise e)
        | Ok vals =>
          let written := <[r := xr.with_data raw vals]> h in
          match reshape vals shp with
          | Raise e => (written, Raise e)
          | Ok new =>
            match xr.set_values (xr.with_data raw vals) new with
            | Raise e => (written, Raise e)
            | Ok g => (<[r := g]> h, Ok r)
            end
          end
        end
      end
    end
  end.
Proof.
  unfold call, ttest_2samp_call, mannwhitney_call, st_bind, deref, lift,
    new_object, write_buffer, assign_values, st_ret, raw_pvalues, family,
    ravel.
  change (load_global "xr") with (@Ok unit ()).
  change (load_global "np") with (@Ok unit ()).
  change (load_global "sm") with (@Ok unit ()).
  destruct op; cbn -[multitest.multipletests];
    destruct (h !! da1) as [a|]; try done;
    destruct (h !! da2) as [b|]; try done;
    destruct (xr.apply_ufunc _ a b _) as [raw|e]; try done;
    destruct (np.setitem_mask _ _ _) as [vals|e]; try done;
    rewrite !alter_insert_eq, ?lookup_insert_eq;
    destruct (reshape _ _) as [new|e]; try done;
    destruct (xr.set_values _ _) as [g|e]; try done;
    by rewrite insert_insert_eq.
Qed.

Lemma call_frame op (h : store) da1 da2 paired dim alpha r da :
  h !! r = Some da ->
  (call op da1 da2 paired dim alpha h).1 !! r = Some da.
Proof.
  intros Hr.
  assert (Hfresh : fresh (dom h) <> r).
  { intros <-. apply (is_fresh (dom h)). apply elem_of_dom. eauto. }
  rewrite call_unfold.
  destruct (h !! da1) as [a|]; [|done].
  destruct (h !! da2) as [b|]; [|done].
  destruct (raw_pvalues op a b paired dim) as [raw|e]; [|done].
  cbn -[multitest.multipletests].
  destruct (np.setitem_mask _ _ _) as [vals|e];
    [|simpl; by rewrite lookup_insert_ne].
  destruct (reshape _ _) as [new|e];
    [|simpl; by rewrite lookup_insert_ne].
  destruct (xr.set_values _ _) as [g|e]; simpl; by rewrite lookup_insert_ne.
Qed.

Lemma call_returns op (h : store) da1 da2 paired dim alpha out :
  (call op da1 da2 paired dim alpha h).2 = Ok out ->
  h !! out = None /\
  exists a b g,
    h !! da1 = Some a /\ h !! da2 = Some b /\
    run op a b paired dim alpha = Ok g /\
    (call op da1 da2 paired dim alpha h).1 !! out = Some g.
Proof.
  rewrite call_unfold.
  destruct (h !! da1) as [a|]; [|done].
  destruct (h !! da2) as [b|]; [|done].
  pose proof (run_unfold op a b paired dim alpha) as Hrun.
  destruct (raw_pvalues op a b paired dim) as [raw|e]; [|done].
  cbn -[multitest.multipletests] in *. unfold ravel in Hrun.
  destruct (np.setitem_mask _ _ _) as [vals|e]; [|done]. simpl in *.
  destruct (reshape _ _) as [new|e]; [|done]. simpl in *.
  change (xr.set_values (xr.with_data raw vals) new)
    with (xr.set_values raw new).
  destruct (xr.set_values raw new) as [g|e]; [|done]. simpl.
  intros [= <-]. split.
  - apply not_elem_of_dom. apply is_fresh.
  - exists a, b, g. repeat split; [exact Hrun|].
    by rewrite lookup_insert_eq.
Qed.

(** A call that the pure function answers with a grid stores that grid
    at a fresh reference and returns the reference. *)
Lemma call_run op (h : store) da1 da2 paired dim alpha a b g :
  h !! da1 = Some a -> h !! da2 = Some b ->
  run op a b paired dim alpha = Ok g ->
  (call op da1 da2 paired dim alpha h).2 = Ok (fresh (dom h)) /\
  (call op da1 da2 paired dim alpha h).1 !! fresh (dom h) = Some g.
Proof.
  intros Ha Hb. rewrite call_unfold, Ha, Hb, run_unfold.
  destruct (raw_pvalues op a b paired dim) as [raw|e]; [|done].
  cbn -[multitest.multipletests]. unfold ravel.
  destruct (np.setitem_mask _ _ _) as [vals|e]; [|done]. simpl.
  destruct (reshape _ _) as [new|e]; [|done]. simpl.
  change (xr.set_values (xr.with_data raw vals) new)
    with (xr.set_values raw new).
  destruct (xr.set_values raw new) as [g'|e]; [|done]. simpl.
  intros [= <-]. split; [done|]. by rewrite lookup_insert_eq.
Qed.

End Store.

(** C9. A call leaves every object of the store as it was, the two input
    grids among them, whether it returns or raises; and the grid it
    returns is an object the store did not hold before, with the value
    the operation computes from the inputs. *)
Theorem C9_inputs_not_mutated `{Stats} (op : operation) (h : store)
    (da1 da2 : nat) (paired : bool) (dim : dim_arg) (alpha : Q) :
  (forall r da,
     h !! r = Some da ->
     (call op da1 da2 paired dim alpha h).1 !! r = Some da) /\
  (forall out,
     (call op da1 da2 paired dim alpha h).2 = Ok out ->
     h !! out = None /\
     exists a b g,
       h !! da1 = Some a /\ h !! da2 = Some b /\
       run op a b paired dim alpha = Ok g /\
       (call op da1 da2 paired dim alpha h).1 !! out = Some g).
Proof.
  split.
  - intros r da. apply call_frame.
  - intros out. apply call_returns.
Qed.

Lemma C9_inputs_not_mutated_witness :
  (@call toy_stats TTest 1 2 false (DimStr "time") (5 # 100) ex_store).1
    !! 1%nat = Some exA /\
  (@call toy_stats TTest 1 2 false (DimStr "time") (5 # 100) ex_store).1
    !! 2%nat = Some exB /\
  ex_store !! 3%nat = None /\
  exists a b g,
    ex_store !! 1%nat = Some a /\ ex_store !! 2%nat = Some b /\
    @run toy_stats TTest a b false (DimStr "time") (5 # 100) = Ok g /\
    (@call toy_stats TTest 1 2 false (DimStr "time") (5 # 100) ex_store).1
      !! 3%nat = Some g.
Proof.
  destruct (@C9_inputs_not_mutated toy_stats TTest ex_store 1 2 false
              (DimStr "time") (5 # 100)%Q) as [Hframe Hnew].
  split; [apply Hframe; vm_compute; reflexivity|].
  split; [apply Hframe; vm_compute; reflexivity|].
  apply Hnew. vm_compute. reflexivity.
Defined.

(** * Further properties of the two functions *)

(** ** Calls that raise before any test runs *)

Lemma align_exact_raises da1 da2 exclude e :
  xr.align_exact da1 da2 exclude = Raise e -> exists msg, e = ValueError msg.
Proof. unfold xr.align_exact. destruct (forallb _ _); [done|]. intros [= <-]. eauto. Qed.

Lemma add_dim_sizes_raises acc l exclude e :
  xr.add_dim_sizes acc l exclude = Raise e -> exists msg, e = ValueError msg.
Proof.
  revert acc. induction l as [|[d n] l IH]; intros acc; simpl; [done|].
  destruct (bool_decide (d ∈ exclude)); [apply IH|].
  destruct (xr.assoc d acc) as [n'|]; [|apply IH].
  destruct (decide (n' = n)); [apply IH|]. intros [= <-]. eauto.
Qed.

Lemma unified_dim_sizes_raises da1 da2 exclude e :
  xr.unified_dim_sizes da1 da2 exclude = Raise e ->
  exists msg, e = ValueError msg.
Proof.
  unfold xr.unified_dim_sizes. destruct (bool_decide _); [|intros [= <-]; eauto].
  destruct (xr.add_dim_sizes [] _ _) as [acc|e'] eqn:E; simpl.
  - apply add_dim_sizes_raises.
  - intros [= <-]. by eapply add_dim_sizes_raises.
Qed.

Lemma broadcast_compat_data_raises da ds core e :
  xr.broadcast_compat_data da ds core = Raise e ->
  exists msg, e = ValueError msg.
Proof.
  unfold xr.broadcast_compat_data. destruct (bool_decide _); [done|].
  intros [= <-]. eauto.
Qed.

Lemma broadcast_compat_data_missing da ds d :
  d ∉ xr.dims da ->
  exists msg, xr.broadcast_compat_data da ds [d] = Raise (ValueError msg).
Proof.
  intros Hd. unfold xr.broadcast_compat_data.
  rewrite bool_decide_eq_false_2; [eauto|].
  intros Hall. by apply Forall_cons in Hall as [? _].
Qed.

Section EarlyErrors.
Context `{Stats}.

(** When [apply_ufunc] raises, the call raises the same exception. *)
Lemma run_raw_raises op da1 da2 paired dim alpha e :
  raw_pvalues op da1 da2 paired dim = Raise e ->
  run op da1 da2 paired dim alpha = Raise e.
Proof. intros Hraw. by rewrite run_eq, Hraw. Qed.

(** X1. When the sample dimension is absent from either grid, both
    operations raise a [ValueError] (from [apply_ufunc], before the
    per-cell function is called) and return no grid. *)
Theorem X1_missing_sample_dimension (op : operation)
    (da1 da2 : xr.DataArray) (paired : bool) (d : string) (alpha : Q) :
  d ∉ xr.dims da1 \/ d ∉ xr.dims da2 ->
  exists msg, run op da1 da2 paired (DimStr d) alpha = Raise (ValueError msg).
Proof.
  intros Hd.
  cut (exists msg, raw_pvalues op da1 da2 paired (DimStr d)
                   = Raise (ValueError msg)).
  { intros [msg Hraw]. exists msg. by apply run_raw_raises. }
  unfold raw_pvalues, xr.apply_ufunc. simpl dim_list.
  destruct (xr.align_exact da1 da2 [d]) as [[]|e] eqn:Ha; simpl.
  2:{ apply align_exact_raises in Ha as [msg ->]. eauto. }
  destruct (xr.unified_dim_sizes da1 da2 [d]) as [ds|e] eqn:Hu; simpl.
  2:{ apply unified_dim_sizes_raises in Hu as [msg ->]. eauto. }
  destruct (xr.broadcast_compat_data da1 ds [d]) as [x|e] eqn:Hx; simpl.
  2:{ apply broadcast_compat_data_raises in Hx as [msg ->]. eauto. }
  destruct Hd as [Hd|Hd].
  - destruct (broadcast_compat_data_missing da1 ds d Hd) as [msg Hm].
    congruence.
  - destruct (broadcast_compat_data_missing da2 ds d Hd) as [msg Hm].
    rewrite Hm. simpl. eauto.
Qed.

End EarlyErrors.

Lemma X1_missing_sample_dimension_witness :
  exists msg,
    @run toy_stats TTest exA exC false (DimStr "year") (5 # 100)
    = Raise (ValueError msg).
Proof.
  apply (@X1_missing_sample_dimension toy_stats TTest exA exC false
           "year" (5 # 100)%Q).
  left. by_computation.
Defined.

Section Assoc2.
Context {V : Type}.

Lemma assoc_app_Some (k : string) (v : V) (l1 l2 : list (string * V)) :
  xr.assoc k l1 = Some v -> xr.assoc k (l1 ++ l2) = Some v.
Proof.
  induction l1 as [|[k' v'] l1 IH]; simpl; [done|].
  destruct (decide (k = k')); [done|]. exact IH.
Qed.

Lemma assoc_app_None (k : string) (l1 l2 : list (string * V)) :
  xr.assoc k l1 = None -> xr.assoc k (l1 ++ l2) = xr.assoc k l2.
Proof.
  induction l1 as [|[k' v'] l1 IH]; simpl; [done|].
  destruct (decide (k = k')); [done|]. exact IH.
Qed.

End Assoc2.

(** What [unified_dim_sizes] has recorded when it returns: the sizes it
    started from, and the size of every dimension it read that is not
    excluded. *)
Lemma add_dim_sizes_Ok acc l exclude acc' :
  xr.add_dim_sizes acc l exclude = Ok acc' ->
  (forall k n, xr.assoc k acc = Some n -> xr.assoc k acc' = Some n) /\
  (forall k n, (k, n) ∈ l -> k ∉ exclude -> xr.assoc k acc' = Some n).
Proof.
  revert acc. induction l as [|[d n] l IH]; intros acc; simpl.
  - intros [= <-]. split; [done|]. intros k n Hin. by apply elem_of_nil in Hin.
  - case_bool_decide as Hex.
    + intros Hrec. destruct (IH _ Hrec) as [IH1 IH2]. split; [done|].
      intros k n0 Hin Hk. apply elem_of_cons in Hin as [[= -> ->]|Hin]; [done|].
      by apply IH2.
    + destruct (xr.assoc d acc) as [n'|] eqn:Hd.
      * destruct (decide (n' = n)) as [->|]; [|done].
        intros Hrec. destruct (IH _ Hrec) as [IH1 IH2]. split; [done|].
        intros k n0 Hin Hk.
        apply elem_of_cons in Hin as [[= -> ->]|Hin]; [by apply IH1|].
        by apply IH2.
      * intros Hrec. destruct (IH _ Hrec) as [IH1 IH2]. split.
        -- intros k n0 Hk. apply IH1. by apply assoc_app_Some.
        -- intros k n0 Hin Hk.
           apply elem_of_cons in Hin as [[= -> ->]|Hin]; [|by apply IH2].
           apply IH1. rewrite assoc_app_None by done. simpl.
           by rewrite decide_True.
Qed.

Section Mismatch.
Context `{Stats}.

(** X2. When both grids carry an index coordinate on a dimension that is
    not the sample dimension and the labels differ, both operations raise
    the alignment error of [apply_ufunc] (its default [join="exact"]): the
    grids are compared by label, never silently by position. *)
Theorem X2_coordinate_mismatch (op : operation) (da1 da2 : xr.DataArray)
    (paired : bool) (dim : dim_arg) (alpha : Q)
    (k : string) (idx1 idx2 : list Z) :
  (k, idx1) ∈ xr.coords da1 ->
  xr.assoc k (xr.coords da2) = Some idx2 ->
  k ∉ dim_list dim ->
  idx1 <> idx2 ->
  exists msg, run op da1 da2 paired dim alpha = Raise (ValueError msg).
Proof.
  intros Hin H2 Hk Hne. eexists. apply run_raw_raises.
  unfold raw_pvalues, xr.apply_ufunc, xr.align_exact.
  destruct (forallb _ (xr.coords da1)) eqn:Hall; [|reflexivity].
  exfalso. rewrite forallb_forall in Hall.
  specialize (Hall (k, idx1)). simpl in Hall.
  rewrite H2, bool_decide_eq_false_2 in Hall by done.
  rewrite bool_decide_eq_false_2 in Hall by done.
  apply list_elem_of_In in Hin. by specialize (Hall Hin).
Qed.

(** X3. When a dimension that is not the sample dimension has different
    lengths in the two grids, both operations raise a [ValueError] and
    return no grid. *)
Theorem X3_extent_mismatch (op : operation) (da1 da2 : xr.DataArray)
    (paired : bool) (dim : dim_arg) (alpha : Q) (k : string) (n1 n2 : nat) :
  xr.assoc k (xr.sizes da1) = Some n1 ->
  xr.assoc k (xr.sizes da2) = Some n2 ->
  k ∉ dim_list dim ->
  n1 <> n2 ->
  exists msg, run op da1 da2 paired dim alpha = Raise (ValueError msg).
Proof.
  intros H1 H2 Hk Hne.
  cut (exists msg, raw_pvalues op da1 da2 paired dim = Raise (ValueError msg)).
  { intros [msg Hraw]. exists msg. by apply run_raw_raises. }
  unfold raw_pvalues, xr.apply_ufunc.
  destruct (xr.align_exact da1 da2 _) as [[]|e] eqn:Ha; simpl.
  2:{ apply align_exact_raises in Ha as [msg ->]. eauto. }
  destruct (xr.unified_dim_sizes da1 da2 _) as [ds|e] eqn:Hu; simpl.
  2:{ apply unified_dim_sizes_raises in Hu as [msg ->]. eauto. }
  exfalso. revert Hu. unfold xr.unified_dim_sizes.
  destruct (bool_decide _); [|done].
  destruct (xr.add_dim_sizes [] _ _) as [acc|] eqn:E1; [|done]. simpl.
  intros E2.
  destruct (add_dim_sizes_Ok _ _ _ _ E1) as [_ Hfirst].
  destruct (add_dim_sizes_Ok _ _ _ _ E2) as [Hkeep Hsecond].
  apply assoc_Some_elem in H1, H2.
  pose proof (Hkeep _ _ (Hfirst _ _ H1 Hk)) as Ha1.
  pose proof (Hsecond _ _ H2 Hk) as Ha2. congruence.
Qed.

(** X4. When no raw p-value is finite (no cell has enough samples), both
    operations return the grid of raw p-values as it is: the correction
    is handed an empty family and writes nothing, and every cell stays
    undefined. *)
Theorem X4_no_finite_pvalue (op : operation) (da1 da2 : xr.DataArray)
    (paired : bool) (dim : dim_arg) (alpha : Q) (raw : xr.DataArray) :
  raw_pvalues op da1 da2 paired dim = Ok raw ->
  Forall (fun v => isfinite v = false) (data (xr.variable raw)) ->
  run op da1 da2 paired dim alpha = Ok raw.
Proof.
  intros Hraw Hall. rewrite (run_Ok _ _ _ _ _ alpha _ Hraw). f_equal.
  assert (Hsame : corrected (data (xr.variable raw)) alpha
                  = data (xr.variable raw)).
  { apply list_eq. intros i.
    destruct (data (xr.variable raw) !! i) as [v|] eqn:Hi.
    - apply corrected_undefined; [done|].
      rewrite Forall_forall in Hall. apply Hall.
      by eapply list_elem_of_lookup_2.
    - apply lookup_ge_None. rewrite corrected_length.
      by apply lookup_ge_None. }
  unfold xr.with_data. rewrite Hsame. by destruct raw as [? ? []].
Qed.

End Mismatch.

Lemma X2_coordinate_mismatch_witness :
  exists msg,
    @run toy_stats TTest exA exC_relabelled false (DimStr "time") (5 # 100)
    = Raise (ValueError msg).
Proof.
  apply (@X2_coordinate_mismatch toy_stats TTest exA exC_relabelled false
           (DimStr "time") (5 # 100)%Q "x" [10; 20; 30]%Z [10; 20; 31]%Z).
  - by_computation.
  - reflexivity.
  - by_computation.
  - discriminate.
Defined.

Lemma X3_extent_mismatch_witness :
  exists msg,
    @run toy_stats RankTest exA exShort false (DimStr "time") (5 # 100)
    = Raise (ValueError msg).
Proof.
  apply (@X3_extent_mismatch toy_stats RankTest exA exShort false
           (DimStr "time") (5 # 100)%Q "x" 3%nat 2%nat).
  - reflexivity.
  - reflexivity.
  - by_computation.
  - discriminate.
Defined.

Lemma X4_no_finite_pvalue_witness :
  @run toy_stats TTest exN exN false (DimStr "time") (5 # 100) = Ok exN_raw.
Proof.
  apply (@X4_no_finite_pvalue toy_stats TTest exN exN false
           (DimStr "time") (5 # 100)%Q exN_raw).
  - vm_compute. reflexivity.
  - repeat constructor.
Defined.

(** ** The correction, cell by cell *)

(** The position a cell takes in the sorted family does not depend on the
    level. *)
Lemma reject_of_position pvals j p :
  pvals !! j = Some p ->
  exists k,
    BH.sort_ascending pvals !! k = Some p /\
    forall alpha,
      reject_of pvals alpha !! j
      = multitest.fdr_reject (BH.sort_ascending pvals) alpha !! k.
Proof.
  intros Hj.
  assert (Hin : j ∈ np.argsort pvals).
  { rewrite argsort_perm. apply elem_of_seq.
    apply lookup_lt_Some in Hj. lia. }
  apply list_elem_of_lookup in Hin as [k Hk].
  assert (Hklt : (k < length pvals)%nat).
  { apply lookup_lt_Some in Hk. by rewrite argsort_length in Hk. }
  exists k. split.
  - rewrite <- take_argsort. unfold np.take.
    rewrite list_lookup_fmap, Hk. simpl. f_equal.
    by apply nth_lookup_Some.
  - intros alpha.
    destruct (lookup_lt_is_Some_2
                (multitest.fdr_reject (BH.sort_ascending pvals) alpha) k)
      as [b Hb].
    { by rewrite fdr_reject_length, sort_ascending_length. }
    rewrite Hb. unfold reject_of.
    eapply scatter_lookup; [|exact Hk|exact Hb].
    by rewrite fdr_reject_length, sort_ascending_length, argsort_perm.
Qed.

Lemma fdr_reject_true srt alpha k :
  (k < length srt)%nat ->
  multitest.fdr_reject srt alpha !! k = Some true <->
  exists K, (k <= K)%nat /\ BH.satisfies srt alpha (S K) = true.
Proof.
  intros Hk.
  destruct (lookup_lt_is_Some_2 (multitest.fdr_reject srt alpha) k) as [b Hb].
  { by rewrite fdr_reject_length. }
  rewrite Hb. rewrite <- (fdr_reject_lookup _ _ _ _ Hb).
  split; [by intros [= ->]|by intros ->].
Qed.

Lemma satisfies_mono_alpha srt alpha alpha' K :
  (alpha <= alpha')%Q ->
  BH.satisfies srt alpha (S K) = true ->
  BH.satisfies srt alpha' (S K) = true.
Proof.
  intros Hle Hs. destruct (satisfies_lookup _ _ _ Hs) as (p & Hp & Hpt).
  unfold BH.satisfies. simpl. rewrite Nat.sub_0_r, Hp.
  apply Qle_bool_iff. eapply Qle_trans; [exact Hpt|].
  rewrite !(Qmult_comm (_ # _)).
  apply Qmult_le_compat_r; [done|].
  unfold Qle. simpl. lia.
Qed.

Lemma rank_fraction_full (m : nat) (alpha : Q) :
  (0 < m)%nat -> ((Z.of_nat m # Pos.of_nat m) * alpha == alpha)%Q.
Proof.
  intros Hm. unfold Qeq. simpl.
  rewrite Pos2Z.inj_mul, <- (positive_nat_Z (Pos.of_nat m)), Nat2Pos.id by lia.
  ring.
Qed.

(** A cell of the corrected grid that holds 1.0 had a finite raw p-value. *)
Lemma corrected_marked values alpha i :
  corrected values alpha !! i = Some (of_bool true) ->
  exists p,
    values !! i = Some (FNum p) /\
    family values !! family_index values i = Some p /\
    reject_of (family values) alpha !! family_index values i = Some true.
Proof.
  intros Hc.
  destruct (lookup_lt_is_Some_2 values i) as [v Hv].
  { apply lookup_lt_Some in Hc. by rewrite corrected_length in Hc. }
  destruct (isfinite v) eqn:Hfin.
  - destruct v as [p| |]; try done. exists p. split; [done|].
    destruct (putmask_defined values
                (of_bool <$> reject_of (family values) alpha) i p)
      as [Hfam _]; [by rewrite length_fmap, reject_of_length|done|].
    split; [done|].
    destruct (corrected_defined values alpha i p Hv) as (b & Hb & Hcb).
    rewrite Hcb in Hc. injection Hc as Hc.
    by destruct b.
  - rewrite (corrected_undefined _ _ _ _ Hv Hfin) in Hc.
    injection Hc as ->. done.
Qed.

(** The converse direction, for a finite cell. *)
Lemma corrected_mark values alpha i p :
  values !! i = Some (FNum p) ->
  reject_of (family values) alpha !! family_index values i = Some true ->
  corrected values alpha !! i = Some (of_bool true).
Proof.
  intros Hv Hr.
  destruct (corrected_defined values alpha i p Hv) as (b & Hb & ->).
  congruence.
Qed.

Section Correction.
Context `{Stats}.

(** Two runs on the same arguments correct the same raw p-values. *)
Lemma run_pair_inv op da1 da2 paired dim alpha alpha' g g' :
  run op da1 da2 paired dim alpha = Ok g ->
  run op da1 da2 paired dim alpha' = Ok g' ->
  exists raw,
    raw_pvalues op da1 da2 paired dim = Ok raw /\
    g = xr.with_data raw (corrected (data (xr.variable raw)) alpha) /\
    g' = xr.with_data raw (corrected (data (xr.variable raw)) alpha').
Proof.
  intros Hg Hg'.
  destruct (run_Ok_inv _ _ _ _ _ _ _ Hg) as (raw & Hraw & _ & ->).
  destruct (run_Ok_inv _ _ _ _ _ _ _ Hg') as (raw' & Hraw' & _ & ->).
  rewrite Hraw in Hraw'. injection Hraw' as <-. eauto.
Qed.

(** X5. The correction keeps the grid's cells and its undefined ones: the
    returned grid has as many cells as the raw p-values, a cell is finite
    in it exactly when its raw p-value is, and a finite cell holds 1.0 or
    0.0, never a p-value. *)
Theorem X5_mask_preserved (op : operation) (da1 da2 : xr.DataArray)
    (paired : bool) (dim : dim_arg) (alpha : Q) (raw g : xr.DataArray) :
  raw_pvalues op da1 da2 paired dim = Ok raw ->
  run op da1 da2 paired dim alpha = Ok g ->
  isfinite <$> data (xr.variable g) = isfinite <$> data (xr.variable raw) /\
  Forall (fun w => isfinite w = true -> w = FNum 1 \/ w = FNum 0)
         (data (xr.variable g)).
Proof.
  intros Hraw Hrun.
  destruct (run_Ok_inv _ _ _ _ _ _ _ Hrun) as (raw' & Hraw' & _ & ->).
  rewrite Hraw in Hraw'. injection Hraw' as <-. simpl.
  set (values := data (xr.variable raw)).
  assert (Hcell : forall i w, corrected values alpha !! i = Some w ->
            exists v, values !! i = Some v /\ isfinite w = isfinite v /\
                      (isfinite w = true -> w = FNum 1 \/ w = FNum 0)).
  { intros i w Hw.
    destruct (lookup_lt_is_Some_2 values i) as [v Hv].
    { apply lookup_lt_Some in Hw. by rewrite corrected_length in Hw. }
    exists v. split; [done|]. destruct (isfinite v) eqn:Hfin.
    - destruct v as [p| |]; try done.
      destruct (corrected_defined values alpha i p Hv) as (b & _ & Hcb).
      rewrite Hcb in Hw. injection Hw as <-. split; [done|].
      intros _. destruct b; auto.
    - rewrite (corrected_undefined _ _ _ _ Hv Hfin) in Hw.
      injection Hw as <-. split; [done|]. congruence. }
  split.
  - apply list_eq. intros i. rewrite !list_lookup_fmap.
    destruct (corrected values alpha !! i) as [w|] eqn:Hw.
    + destruct (Hcell i w Hw) as (v & Hv & Hf & _).
      rewrite Hv. simpl. by rewrite Hf.
    + apply lookup_ge_None in Hw. rewrite corrected_length in Hw.
      apply lookup_ge_None in Hw. by rewrite Hw.
  - apply Forall_forall. intros w Hin.
    apply list_elem_of_lookup in Hin as [i Hw].
    by destruct (Hcell i w Hw) as (_ & _ & _ & ?).
Qed.

(** X6. The marking is monotone across cells: when a cell is marked
    significant, every cell of the grid whose raw p-value is not larger is
    marked too; in particular cells with equal p-values are marked alike.
    (For a level that is not negative, or p-values that are not.) *)
Theorem X6_monotone_across_cells (op : operation) (da1 da2 : xr.DataArray)
    (paired : bool) (dim : dim_arg) (alpha : Q) (raw g : xr.DataArray)
    (i j : nat) (p q : Q) :
  raw_pvalues op da1 da2 paired dim = Ok raw ->
  run op da1 da2 paired dim alpha = Ok g ->
  BH.regular alpha (family (data (xr.variable raw))) ->
  data (xr.variable raw) !! i = Some (FNum p) ->
  data (xr.variable raw) !! j = Some (FNum q) ->
  (q <= p)%Q ->
  data (xr.variable g) !! i = Some (FNum 1) ->
  data (xr.variable g) !! j = Some (FNum 1).
Proof.
  intros Hraw Hrun Hreg Hi Hj Hqp.
  destruct (run_Ok_inv _ _ _ _ _ _ _ Hrun) as (raw' & Hraw' & _ & ->).
  rewrite Hraw in Hraw'. injection Hraw' as <-. simpl.
  rewrite (corrected_significant _ _ _ _ Hreg Hi).
  rewrite (corrected_significant _ _ _ _ Hreg Hj).
  intros [= Hs]. f_equal.
  assert (Hp : BH.significant (family (data (xr.variable raw))) alpha p = true).
  { by destruct (BH.significant _ alpha p). }
  assert (Hq : BH.significant (family (data (xr.variable raw))) alpha q = true).
  { revert Hp. unfold BH.significant.
    destruct (BH.cutoff _ alpha) as [c|]; [|done].
    rewrite !Qle_bool_iff. intros Hp. by eapply Qle_trans. }
  by rewrite Hq.
Qed.

(** X7. The marking is monotone in the level: a cell marked significant
    at [global_alpha] is marked at every larger level, for the same
    arguments otherwise. *)
Theorem X7_monotone_in_alpha (op : operation) (da1 da2 : xr.DataArray)
    (paired : bool) (dim : dim_arg) (alpha alpha' : Q)
    (g g' : xr.DataArray) (i : nat) :
  run op da1 da2 paired dim alpha = Ok g ->
  run op da1 da2 paired dim alpha' = Ok g' ->
  (alpha <= alpha')%Q ->
  data (xr.variable g) !! i = Some (FNum 1) ->
  data (xr.variable g') !! i = Some (FNum 1).
Proof.
  intros Hg Hg' Hle.
  destruct (run_pair_inv _ _ _ _ _ _ _ _ _ Hg Hg') as (raw & _ & -> & ->).
  simpl. intros Hi.
  destruct (corrected_marked _ _ _ Hi) as (p & Hv & Hfam & Hr).
  apply (corrected_mark _ _ _ p Hv).
  destruct (reject_of_position _ _ _ Hfam) as (k & Hk & Hpos).
  rewrite Hpos in Hr |- *.
  assert (Hklt : (k < length (BH.sort_ascending
                                (family (data (xr.variable raw)))))%nat).
  { by eapply lookup_lt_Some. }
  apply fdr_reject_true in Hr as (K & HkK & Hs); [|done].
  apply fdr_reject_true; [done|].
  exists K. split; [done|]. by eapply satisfies_mono_alpha.
Qed.

End Correction.

Lemma family_elem values c :
  c ∈ family values -> FNum c ∈ values.
Proof.
  rewrite family_eq. unfold as_rationals. intros Hin.
  apply list_elem_of_omap in Hin as (v & Hv & Hc).
  destruct v; try done. by injection Hc as ->.
Qed.

(** The last rank satisfies the inequality when the largest p-value is at
    or below the level. *)
Lemma satisfies_last pvals alpha :
  pvals <> [] ->
  Forall (fun p => (p <= alpha)%Q) pvals ->
  BH.satisfies (BH.sort_ascending pvals) alpha (length pvals) = true.
Proof.
  intros Hne Hall.
  assert (Hm : (0 < length pvals)%nat) by (destruct pvals; [done|simpl; lia]).
  unfold BH.satisfies. rewrite sort_ascending_length.
  destruct (lookup_lt_is_Some_2 (BH.sort_ascending pvals)
              (length pvals - 1)) as [c Hc].
  { rewrite sort_ascending_length. lia. }
  rewrite Hc. apply Qle_bool_iff.
  rewrite rank_fraction_full by done.
  rewrite Forall_forall in Hall. apply Hall.
  rewrite <- (sort_ascending_perm pvals). by eapply list_elem_of_lookup_2.
Qed.

Section Levels.
Context `{Stats}.

(** X8. When every finite raw p-value is at or below [global_alpha], the
    correction marks every defined cell significant. *)
Theorem X8_level_above_all (op : operation) (da1 da2 : xr.DataArray)
    (paired : bool) (dim : dim_arg) (alpha : Q) (raw g : xr.DataArray) :
  raw_pvalues op da1 da2 paired dim = Ok raw ->
  run op da1 da2 paired dim alpha = Ok g ->
  (forall p, FNum p ∈ data (xr.variable raw) -> (p <= alpha)%Q) ->
  forall i p,
    data (xr.variable raw) !! i = Some (FNum p) ->
    data (xr.variable g) !! i = Some (FNum 1).
Proof.
  intros Hraw Hrun Hall i p Hi.
  destruct (run_Ok_inv _ _ _ _ _ _ _ Hrun) as (raw' & Hraw' & _ & ->).
  rewrite Hraw in Hraw'. injection Hraw' as <-. simpl.
  set (values := data (xr.variable raw)) in *.
  apply (corrected_mark _ _ _ p Hi).
  destruct (putmask_defined values
              (of_bool <$> reject_of (family values) alpha) i p)
    as [Hfam _]; [by rewrite length_fmap, reject_of_length|done|].
  destruct (reject_of_position _ _ _ Hfam) as (k & Hk & ->).
  assert (Hklt : (k < length (family values))%nat).
  { apply lookup_lt_Some in Hk. by rewrite sort_ascending_length in Hk. }
  apply fdr_reject_true; [by rewrite sort_ascending_length|].
  exists (length (family values) - 1)%nat. split; [lia|].
  replace (S (length (family values) - 1)) with (length (family values))
    by lia.
  apply satisfies_last; [intros Hnil; rewrite Hnil in Hklt; simpl in Hklt; lia|].
  apply Forall_forall. intros c Hc. by apply Hall, family_elem.
Qed.

(** X10. With a single finite raw p-value the correction changes nothing:
    the cell is marked exactly when its p-value is at or below
    [global_alpha]. *)
Theorem X10_single_defined_cell (op : operation) (da1 da2 : xr.DataArray)
    (paired : bool) (dim : dim_arg) (alpha : Q) (raw g : xr.DataArray)
    (i : nat) (p : Q) :
  raw_pvalues op da1 da2 paired dim = Ok raw ->
  run op da1 da2 paired dim alpha = Ok g ->
  length (family (data (xr.variable raw))) = 1%nat ->
  data (xr.variable raw) !! i = Some (FNum p) ->
  data (xr.variable g) !! i = Some (of_bool (Qle_bool p alpha)).
Proof.
  intros Hraw Hrun Hone Hi.
  destruct (run_Ok_inv _ _ _ _ _ _ _ Hrun) as (raw' & Hraw' & _ & ->).
  rewrite Hraw in Hraw'. injection Hraw' as <-. simpl.
  set (values := data (xr.variable raw)) in *.
  destruct (corrected_defined values alpha i p Hi) as (b & Hb & ->).
  do 2 f_equal.
  destruct (putmask_defined values
              (of_bool <$> reject_of (family values) alpha) i p)
    as [Hfam _]; [by rewrite length_fmap, reject_of_length|done|].
  destruct (reject_of_position _ _ _ Hfam) as (k & Hk & Hpos).
  rewrite Hpos in Hb.
  assert (Hlen : length (BH.sort_ascending (family values)) = 1%nat).
  { by rewrite sort_ascending_length. }
  assert (k = 0%nat) as -> by (apply lookup_lt_Some in Hk; lia).
  apply eq_true_iff_eq. rewrite (fdr_reject_lookup _ _ _ _ Hb).
  rewrite Qle_bool_iff. split.
  - intros (K & _ & Hs).
    destruct (satisfies_lookup _ _ _ Hs) as (c & Hc & Hle).
    assert (K = 0%nat) as -> by (apply lookup_lt_Some in Hc; lia).
    rewrite Hk in Hc. injection Hc as <-.
    rewrite Hlen in Hle.
    by rewrite (rank_fraction_full 1 alpha) in Hle by lia.
  - intros Hle. exists 0%nat. split; [done|].
    unfold BH.satisfies. simpl. rewrite Hk, Hlen.
    apply Qle_bool_iff.
    by rewrite (rank_fraction_full 1 alpha) by lia.
Qed.

End Levels.

Ltac by_evaluation := vm_compute; reflexivity.

Lemma X5_mask_preserved_witness :
  isfinite <$> data (xr.variable ex_out)
  = isfinite <$> data (xr.variable ex_raw) /\
  Forall (fun w => isfinite w = true -> w = FNum 1 \/ w = FNum 0)
         (data (xr.variable ex_out)).
Proof.
  apply (@X5_mask_preserved toy_stats RankTest exA exB false
           (DimStr "time") (5 # 100)%Q ex_raw ex_out); by_evaluation.
Defined.

Lemma X6_monotone_across_cells_witness :
  data (xr.variable exE_out) !! 0%nat = Some (FNum 1).
Proof.
  apply (@X6_monotone_across_cells toy_stats TTest exA exE false
           (DimStr "time") (5 # 100)%Q exE_raw exE_out 1%nat 0%nat
           (1 # 197)%Q (1 # 1601)%Q).
  - by_evaluation.
  - by_evaluation.
  - left. unfold Qle. simpl. lia.
  - reflexivity.
  - reflexivity.
  - unfold Qle. simpl. lia.
  - reflexivity.
Defined.

Lemma X7_monotone_in_alpha_witness :
  data (xr.variable ex_out) !! 0%nat = Some (FNum 1).
Proof.
  apply (@X7_monotone_in_alpha toy_stats TTest exA exB false
           (DimStr "time") (5 # 100)%Q (1 # 2)%Q ex_out ex_out 0%nat).
  - by_evaluation.
  - by_evaluation.
  - unfold Qle. simpl. lia.
  - reflexivity.
Defined.

Lemma X8_level_above_all_witness :
  data (xr.variable exE_out) !! 1%nat = Some (FNum 1).
Proof.
  apply (@X8_level_above_all toy_stats TTest exA exE false
           (DimStr "time") (5 # 100)%Q exE_raw exE_out)
    with (p := (1 # 197)%Q).
  - by_evaluation.
  - by_evaluation.
  - intros p Hin. simpl in Hin.
    apply elem_of_cons in Hin as [[= ->]|Hin]; [unfold Qle; simpl; lia|].
    apply elem_of_cons in Hin as [[= ->]|Hin]; [unfold Qle; simpl; lia|].
    apply elem_of_cons in Hin as [Hin|Hin]; [discriminate|].
    by apply elem_of_nil in Hin.
  - reflexivity.
Defined.

Lemma X10_single_defined_cell_witness :
  data (xr.variable exTen_out) !! 0%nat
  = Some (of_bool (Qle_bool (1 # 901) (5 # 100))).
Proof.
  apply (@X10_single_defined_cell toy_stats TTest exZero exTen false
           (DimStr "time") (5 # 100)%Q exTen_raw exTen_out 0%nat).
  - by_evaluation.
  - by_evaluation.
  - reflexivity.
  - reflexivity.
Defined.

(** ** A call, against the function it computes *)

(** X11. On a store, a call behaves as the function on the two stored
    grids: it raises the exception the function raises, or returns a
    reference that was free; and after a call that returns, the store is
    the old one with the returned grid added and nothing else. *)
Theorem X11_call_agrees_with_function `{Stats} (op : operation) (h : store)
    (da1 da2 : nat) (paired : bool) (dim : dim_arg) (alpha : Q)
    (a b : xr.DataArray) :
  h !! da1 = Some a -> h !! da2 = Some b ->
  (call op da1 da2 paired dim alpha h).2
  = (fun _ => fresh (dom h)) <$> run op a b paired dim alpha /\
  forall g,
    run op a b paired dim alpha = Ok g ->
    (call op da1 da2 paired dim alpha h).1 = <[fresh (dom h) := g]> h.
Proof.
  intros Ha Hb. rewrite call_unfold, Ha, Hb, run_unfold.
  destruct (raw_pvalues op a b paired dim) as [raw|e]; [|done].
  cbn -[multitest.multipletests]. unfold ravel.
  destruct (np.setitem_mask _ _ _) as [vals|e]; [|done]. simpl.
  destruct (reshape _ _) as [new|e]; [|done]. simpl.
  change (xr.set_values (xr.with_data raw vals) new)
    with (xr.set_values raw new).
  destruct (xr.set_values raw new) as [g'|e]; [|done]. simpl.
  split; [done|]. by intros g [= <-].
Qed.

Lemma X11_call_agrees_with_function_witness :
  (@call toy_stats TTest 1 2 false (DimStr "time") (5 # 100) ex_store).2
  = (fun _ => fresh (dom ex_store))
      <$> @run toy_stats TTest exA exB false (DimStr "time") (5 # 100) /\
  forall g,
    @run toy_stats TTest exA exB false (DimStr "time") (5 # 100) = Ok g ->
    (@call toy_stats TTest 1 2 false (DimStr "time") (5 # 100) ex_store).1
    = <[fresh (dom ex_store) := g]> ex_store.
Proof.
  apply (@X11_call_agrees_with_function toy_stats TTest ex_store 1 2 false
           (DimStr "time") (5 # 100)%Q exA exB); by_evaluation.
Defined.

(** ** The order of equal p-values *)

(** X12. The decisions do not depend on the order in which the sort puts
    equal p-values ([np.argsort] promises none): for any indices that
    sort the family, correcting in that order and putting the decisions
    back gives the reject vector of [multipletests]. (For a level that is
    not negative, or p-values that are not.) *)
Theorem X12_tie_order_irrelevant (pvals : list Q) (alpha : Q)
    (sortind : list nat) :
  BH.regular alpha pvals ->
  sortind ≡ₚ seq 0 (length pvals) ->
  StronglySorted Qle (np.take pvals sortind) ->
  np.scatter false sortind
    (multitest.fdr_reject (np.take pvals sortind) alpha)
  = reject_of pvals alpha.
Proof.
  intros Hreg Hperm Hsorted. apply list_eq. intros j.
  destruct (pvals !! j) as [p|] eqn:Hj.
  - rewrite (reject_any_order _ _ _ _ _ Hreg Hperm Hsorted Hj).
    by rewrite (reject_of_significant _ _ _ _ Hreg Hj).
  - apply lookup_ge_None in Hj.
    rewrite (proj2 (lookup_ge_None _ _)), (proj2 (lookup_ge_None _ _)); [done| |].
    + by rewrite reject_of_length.
    + rewrite scatter_length, fdr_reject_length.
      unfold np.take. by rewrite length_map, Hperm, length_seq.
Qed.

Lemma X12_tie_order_irrelevant_witness :
  np.scatter false [1; 2; 0]%nat
    (multitest.fdr_reject
       (np.take [1 # 2; 1 # 100; 1 # 2]%Q [1; 2; 0]%nat) (5 # 100))
  = reject_of [1 # 2; 1 # 100; 1 # 2]%Q (5 # 100).
Proof.
  apply (X12_tie_order_irrelevant [1 # 2; 1 # 100; 1 # 2]%Q (5 # 100)%Q
           [1; 2; 0]%nat).
  - left. unfold Qle. simpl. lia.
  - by_computation.
  - repeat constructor; unfold Qle; simpl; lia.
Defined.

(** ** Row-major layout *)

Lemma ndindex_bound s ix : ix ∈ ndindex s -> Forall2 lt ix s.
Proof.
  revert ix. induction s as [|n t IH]; intros ix; simpl.
  - intros Hin. apply list_elem_of_singleton in Hin as ->. constructor.
  - intros Hin. apply list_elem_of_bind in Hin as (i & Hin & Hi).
    apply list_elem_of_fmap in Hin as (ix' & -> & Hix').
    apply elem_of_seq in Hi. constructor; [lia|by apply IH].
Qed.

Lemma item_cons values st strd i ix :
  item values (st :: strd) (i :: ix) = item (drop (i * st) values) strd ix.
Proof. unfold item. simpl. by rewrite nth_skipn. Qed.

Lemma bind_rows {A : Type} (f : nat -> list A) (values : list A) st n :
  (forall i, (i < n)%nat -> f i = take st (drop (i * st) values)) ->
  seq 0 n ≫= f = take (n * st) values.
Proof.
  induction n as [|n IH]; intros Hf; [done|].
  rewrite seq_S, bind_app, IH by (intros i Hi; apply Hf; lia). simpl.
  rewrite app_nil_r, Hf by lia.
  rewrite take_take_drop. f_equal. lia.
Qed.

(** Reading an array through the strides of its shape, index by index in
    row-major order, reads its buffer from the start. *)
Lemma gather_take s values :
  (size_of s <= length values)%nat ->
  item values (strides s) <$> ndindex s = take (size_of s) values.
Proof.
  revert values. induction s as [|n t IH]; intros values Hlen; simpl in *.
  - destruct values as [|v values]; [simpl in Hlen; lia|]. done.
  - transitivity (seq 0 n ≫= fun i =>
                    item values (size_of t :: strides t)
                      <$> (cons i <$> ndindex t)).
    { generalize (seq 0 n). intros l. induction l as [|i l IHl]; [done|].
      simpl. rewrite fmap_app. by f_equal. }
    apply bind_rows. intros i Hi.
    rewrite <- list_fmap_compose.
    rewrite <- IH.
    + apply list_fmap_ext. intros k ix _. simpl. apply item_cons.
    + rewrite length_drop.
      assert ((i + 1) * size_of t <= n * size_of t)%nat
        by (apply Nat.mul_le_mono_r; lia).
      lia.
Qed.

Lemma zeroed_strides_sum ix s st :
  Forall2 lt ix s ->
  sum_list (zip_with Nat.mul ix
     (zip_with (fun n x => if decide (n = 1%nat) then 0%nat else x) s st))
  = sum_list (zip_with Nat.mul ix st).
Proof.
  intros Hlt. revert st. induction Hlt as [|i n ix s Hi _ IH]; intros st.
  - done.
  - destruct st as [|x st]; [done|]. simpl. rewrite IH.
    destruct (decide (n = 1%nat)); [|done].
    assert (i = 0%nat) as -> by lia. done.
Qed.

Lemma broadcast_to_self s dat :
  length dat = size_of s -> broadcast_to (NDArray s dat) s = dat.
Proof.
  intros Hlen. unfold broadcast_to, pad_left. simpl.
  rewrite Nat.sub_diag. simpl.
  rewrite <- (take_ge dat (size_of s)) at 2 by lia.
  rewrite <- gather_take by lia.
  apply Forall_fmap_ext_1. apply Forall_forall. intros ix Hin.
  unfold item. f_equal. apply zeroed_strides_sum. by apply ndindex_bound.
Qed.

Lemma strides_length s : length (strides s) = length s.
Proof. induction s as [|n t IH]; simpl; [done|]. by rewrite IH. Qed.

Lemma assoc_zip_self (ks : list string) (vs : list nat) :
  NoDup ks -> length ks = length vs ->
  (fun k => default 0%nat (xr.assoc k (zip ks vs))) <$> ks = vs.
Proof.
  intros Hnd. revert vs. induction Hnd as [|k ks Hk Hnd IH]; intros vs Hlen.
  - by destruct vs.
  - destruct vs as [|v vs]; [done|]. simpl in *.
    rewrite decide_True by done. simpl. f_equal.
    transitivity ((fun k => default 0%nat (xr.assoc k (zip ks vs))) <$> ks);
      [|apply IH; lia].
    apply Forall_fmap_ext_1. apply Forall_forall. intros k' Hk'.
    rewrite decide_False; [done|]. by intros ->.
Qed.

Lemma filter_all {A : Type} (P : A -> Prop) `{forall a, Decision (P a)} l :
  Forall P l -> filter P l = l.
Proof.
  induction 1 as [|a l Ha _ IH]; [done|].
  rewrite filter_cons, decide_True by done. by rewrite IH.
Qed.

(** The sizes of a grid whose sample dimension is last. *)
Lemma sample_last_sizes da d :
  xr.wf da -> sample_last da d ->
  xr.sizes da = index_sizes da d ++ [(d, sample_length da d)] /\
  shape (xr.variable da) = (index_sizes da d).*2 ++ [sample_length da d].
Proof.
  intros (Hnd & Hlen & _) Hlast. unfold sample_last in Hlast.
  remember ((index_sizes da d).*1) as I eqn:HI.
  assert (HdI : d ∉ I).
  { rewrite Hlast in Hnd. apply NoDup_app in Hnd as (_ & Hdis & _).
    intros Hd. apply (Hdis d Hd). by apply list_elem_of_singleton. }
  assert (Hne : shape (xr.variable da) <> []).
  { intros Hnil. rewrite Hlast, Hnil, length_app in Hlen. simpl in Hlen. lia. }
  destruct (exists_last Hne) as (S & n & Hshape).
  assert (HIS : length I = length S).
  { rewrite Hlast, Hshape, !length_app in Hlen. simpl in Hlen. lia. }
  assert (Hsizes : xr.sizes da = zip I S ++ [(d, n)]).
  { unfold xr.sizes. rewrite Hlast, Hshape.
    by rewrite (zip_with_app pair I [d] S [n]). }
  assert (Hidx : index_sizes da d = zip I S).
  { unfold index_sizes. rewrite Hsizes, filter_app.
    rewrite filter_cons, filter_nil, decide_False by (simpl; auto).
    rewrite app_nil_r. apply filter_all.
    apply Forall_forall. intros [k m] Hin. simpl. intros ->.
    apply HdI. apply elem_of_zip_l in Hin. done. }
  assert (Hn : sample_length da d = n).
  { unfold sample_length. rewrite Hsizes, assoc_app_None.
    - simpl. by rewrite decide_True.
    - apply assoc_None. rewrite fst_zip by lia. done. }
  rewrite Hn, Hidx. split; [done|].
  rewrite snd_zip by lia. done.
Qed.

(** For a grid whose sample dimension is last, nothing is moved: the
    per-cell function receives the grid's own array. *)
Lemma broadcast_compat_data_sample_last da d :
  xr.wf da -> sample_last da d ->
  xr.broadcast_compat_data da (index_sizes da d) [d] = Ok (xr.variable da).
Proof.
  intros Hwf Hlast.
  destruct (sample_last_sizes da d Hwf Hlast) as [Hsizes Hshape].
  destruct Hwf as (Hnd & Hlen & Hdata & _).
  unfold xr.broadcast_compat_data.
  rewrite bool_decide_eq_true_2.
  2:{ repeat constructor. rewrite Hlast. apply elem_of_app. right.
      by apply list_elem_of_singleton. }
  simpl. fold (sample_length da d). rewrite <- Hshape, <- Hlast.
  rewrite assoc_zip_self by (by rewrite ?strides_length).
  rewrite gather_take by lia. rewrite take_ge by lia.
  by destruct (xr.variable da).
Qed.

(** ** What each cell holds *)

Lemma apply_ufunc_valid_with da1 da2 d x y :
  valid_pair da1 da2 d ->
  xr.broadcast_compat_data da1 (index_sizes da1 d) [d] = Ok x ->
  xr.broadcast_compat_data da2 (index_sizes da1 d) [d] = Ok y ->
  forall func,
    xr.apply_ufunc func da1 da2 [d] =
    (r ← func x y;
     if decide (length (shape r) = length (index_sizes da1 d)) then
       if decide (shape r = (index_sizes da1 d).*2) then
         Ok (xr.mkDataArray (index_sizes da1 d).*1 (index_coords da1 d) r)
       else Raise (ValueError
              "size of dimension on inputs was unexpectedly changed by applied function")
     else Raise (ValueError
            "applied function returned data with an unexpected number of dimensions")).
Proof.
  intros Hv Hx Hy func. unfold xr.apply_ufunc.
  rewrite align_exact_valid, unified_dim_sizes_valid by done. simpl.
  rewrite Hx, Hy. simpl.
  rewrite build_output_coords_valid by done. done.
Qed.

Lemma valid_pair_sym da1 da2 d : valid_pair da1 da2 d -> valid_pair da2 da1 d.
Proof.
  intros (H1 & H2 & H3 & H4 & H5 & H6).
  by split; [|split; [|split; [|split; [|split]]]].
Qed.

Section Cells.
Context `{Stats}.

(** X13. On a valid pair of grids whose sample dimension is the last
    one, [ttest_2samp] computes a grid of raw p-values, and the raw
    p-value of cell k, cells counted in row-major order, is the 1-D test
    of the mode ([ttest_rel] when paired, on samples of the same length,
    and [ttest_ind] otherwise) applied to the k-th sample vector of the
    first grid and the k-th sample vector of the second. *)
Theorem X13_cell_by_cell (da1 da2 : xr.DataArray) (paired : bool)
    (d : string) :
  valid_pair da1 da2 d ->
  sample_last da1 d -> sample_last da2 d ->
  (paired = true -> sample_length da1 d = sample_length da2 d) ->
  exists raw,
    raw_pvalues TTest da1 da2 paired (DimStr d) = Ok raw /\
    data (xr.variable raw)
    = (fun k =>
         (if paired then ttest_rel_1d else ttest_ind_1d)
           (stats.row (sample_length da1 d) k (data (xr.variable da1)))
           (stats.row (sample_length da2 d) k (data (xr.variable da2))))
      <$> seq 0 (size_of (index_sizes da1 d).*2).
Proof.
  intros Hv Hl1 Hl2 Hn. pose proof Hv as (Hwf1 & Hwf2 & _ & _ & Hsz & _).
  pose proof (broadcast_compat_data_sample_last da1 d Hwf1 Hl1) as Hx.
  pose proof (broadcast_compat_data_sample_last da2 d Hwf2 Hl2) as Hy.
  rewrite <- Hsz in Hy.
  unfold raw_pvalues. simpl dim_list.
  rewrite (apply_ufunc_valid_with _ _ _ _ _ Hv Hx Hy).
  destruct (sample_last_sizes da1 d Hwf1 Hl1) as [_ Hs1].
  destruct (sample_last_sizes da2 d Hwf2 Hl2) as [_ Hs2].
  rewrite <- Hsz in Hs2.
  destruct Hwf1 as (_ & _ & Hd1 & _). destruct Hwf2 as (_ & _ & Hd2 & _).
  destruct (xr.variable da1) as [s1 dat1], (xr.variable da2) as [s2 dat2].
  simpl in Hs1, Hs2, Hd1, Hd2. subst s1 s2.
  destruct paired; (eexists; split;
    [simpl; unfold stats.ttest_rel, stats.ttest_ind;
     rewrite along_last_axis_sample by done; simpl;
     (rewrite decide_True by by rewrite !length_fmap);
     (rewrite decide_True by done); reflexivity
    |simpl; by rewrite !broadcast_to_self by done]).
Qed.

(** With symmetric tests the per-cell function does not distinguish its
    two arguments. *)
Lemma cell_test_swap op paired x y :
  symmetric_tests -> cell_test op paired y x = cell_test op paired x y.
Proof.
  intros Hsym.
  destruct op, paired; simpl; try done;
    apply along_last_axis_swap; intros u v;
    destruct (Hsym u v) as (E1 & E2 & E3 & _); by rewrite ?E1, ?E2, ?E3.
Qed.

(** X14. The two functions treat their grids alike: on a valid pair, if
    each 1-D test gives the same p-value for its two samples in either
    order, then swapping [da1] and [da2] changes neither the raw p-values
    nor the returned grid (nor the exception raised). *)
Theorem X14_swap_arguments (op : operation) (da1 da2 : xr.DataArray)
    (paired : bool) (d : string) :
  valid_pair da1 da2 d ->
  symmetric_tests ->
  raw_pvalues op da2 da1 paired (DimStr d)
  = raw_pvalues op da1 da2 paired (DimStr d) /\
  forall alpha,
    run op da2 da1 paired (DimStr d) alpha
    = run op da1 da2 paired (DimStr d) alpha.
Proof.
  intros Hv Hsym.
  assert (Hraw : raw_pvalues op da2 da1 paired (DimStr d)
                 = raw_pvalues op da1 da2 paired (DimStr d)).
  { pose proof Hv as (_ & _ & Hd1 & Hd2 & Hsz & Hco).
    destruct (broadcast_compat_data_sample da1 (index_sizes da1 d) d Hd1)
      as [dat1 Hx].
    destruct (broadcast_compat_data_sample da2 (index_sizes da1 d) d Hd2)
      as [dat2 Hy].
    unfold raw_pvalues. simpl dim_list.
    rewrite (apply_ufunc_valid_with da1 da2 d _ _ Hv Hx Hy).
    rewrite (apply_ufunc_valid_with da2 da1 d
               (NDArray ((index_sizes da1 d).*2 ++ [sample_length da2 d]) dat2)
               (NDArray ((index_sizes da1 d).*2 ++ [sample_length da1 d]) dat1)
               (valid_pair_sym _ _ _ Hv)) by by rewrite <- Hsz.
    rewrite <- Hsz, <- Hco. by rewrite cell_test_swap. }
  split; [done|]. intros alpha. by rewrite !run_eq, Hraw.
Qed.

End Cells.

Lemma toy_test_sym x y : toy_test x y = toy_test y x.
Proof.
  unfold toy_test.
  destruct (decide (length (as_rationals x) < 2
                    \/ length (as_rationals y) < 2)%nat) as [Hl|Hl].
  - rewrite decide_True by tauto. done.
  - rewrite decide_False by tauto. f_equal. apply Qred_complete.
    assert (E : ((finite_sum x - finite_sum y) * (finite_sum x - finite_sum y)
                 == (finite_sum y - finite_sum x)
                    * (finite_sum y - finite_sum x))%Q) by ring.
    by rewrite E.
Qed.

Lemma toy_stats_symmetric : @symmetric_tests toy_stats.
Proof. intros x y. simpl. by rewrite (toy_test_sym x y). Qed.

Lemma X13_cell_by_cell_witness :
  exists raw,
    @raw_pvalues toy_stats TTest exA exB false (DimStr "time") = Ok raw /\
    data (xr.variable raw)
    = (fun k =>
         toy_test
           (stats.row (sample_length exA "time") k (data (xr.variable exA)))
           (stats.row (sample_length exB "time") k (data (xr.variable exB))))
      <$> seq 0 (size_of (index_sizes exA "time").*2).
Proof.
  apply (@X13_cell_by_cell toy_stats exA exB false "time").
  - exact exA_exB_valid.
  - reflexivity.
  - reflexivity.
  - discriminate.
Defined.

Lemma X14_swap_arguments_witness :
  @run toy_stats TTest exB exA false (DimStr "time") (5 # 100)%Q
  = @run toy_stats TTest exA exB false (DimStr "time") (5 # 100)%Q.
Proof.
  apply (proj2 (@X14_swap_arguments toy_stats TTest exA exB false "time"
                  exA_exB_valid toy_stats_symmetric)).
Defined.
